(** * Q&A import: sanitizer, title derivation and record selector

    A shallow embedding of [import_discussions.py]: [redact_emails],
    [remove_signature_lines], [sanitize_content], [generate_title] and
    [filter_questions], together with the pieces of the Python standard
    library they call ([str] methods and the [re] module).

    Python strings are modelled as lists of 8-bit characters, read as the
    code points U+0000 .. U+00FF.  Character classes ([\s], [\w],
    [str.isspace], case folding) are the ones Python uses on that range. *)

From Stdlib Require Import ZArith NArith Ascii String List Bool Lia.
From Corelib Require Import SpecFloat.
From stdpp Require Import base list gmap strings.
Import ListNotations.

Local Open Scope list_scope.

(** ** Python [str] *)

Module Str.

Abbreviation str := (list ascii).

(** A string literal of the source. *)
Definition L (s : string) : str := list_ascii_of_string s.

(** The literal ['\n']. *)
Definition newline : str := ["010"%char].

Definition code (c : ascii) : N := N_of_ascii c.

Definition between (lo hi : N) (c : ascii) : bool :=
  (lo <=? code c)%N && (code c <=? hi)%N.

Definition chr_eq (x c : ascii) : bool := (code x =? code c)%N.

Definition is_upper_az (c : ascii) : bool := between 65 90 c.
Definition is_lower_az (c : ascii) : bool := between 97 122 c.
Definition is_digit (c : ascii) : bool := between 48 57 c.

(** [str.isspace] on one character; also the class [\s] of [re] and the
    characters removed by [str.strip]: TAB LF VT FF CR, FS GS RS US, space,
    NEL (U+0085) and NBSP (U+00A0). *)
Definition isspace (c : ascii) : bool :=
  between 9 13 c || between 28 32 c || chr_eq "133" c || chr_eq "160" c.

(** The class [\w] of [re] for [str] patterns: alphanumeric code points
    ([str.isalnum]) and the underscore. *)
Definition isword (c : ascii) : bool :=
  is_digit c || is_upper_az c || is_lower_az c || chr_eq "_" c
  || chr_eq "170" c || between 178 179 c || chr_eq "181" c || between 185 186 c
  || between 188 190 c || between 192 214 c || between 216 246 c
  || between 248 255 c.

(** ASCII case folding of one letter, as [re.IGNORECASE] applies it to a
    pattern letter a-z: only the two cases of that letter match below
    U+0100. *)
Definition lower_az (c : ascii) : ascii :=
  if is_upper_az c then ascii_of_N (code c + 32) else c.

(** [str.upper] on one character.  The small sharp s becomes two letters;
    MICRO SIGN and y-diaeresis have their capital above U+00FF and are
    left in place, which no comparison with an ASCII constant observes. *)
Definition upper_char (c : ascii) : str :=
  if is_lower_az c then [ascii_of_N (code c - 32)]
  else if chr_eq "223" c then L "SS"
  else if between 224 254 c && negb (chr_eq "247" c) then [ascii_of_N (code c - 32)]
  else [c].

Definition upper (s : str) : str := concat (map upper_char s).

Fixpoint drop_while (p : ascii -> bool) (s : str) : str :=
  match s with
  | c :: s' => if p c then drop_while p s' else s
  | [] => []
  end.

Definition lstrip (s : str) : str := drop_while isspace s.
Definition rstrip (s : str) : str := rev (drop_while isspace (rev s)).
Definition strip (s : str) : str := lstrip (rstrip s).

(** [s.split(sep)] for a one-character separator: never empty. *)
Fixpoint split (sep : ascii) (s : str) : list str :=
  match s with
  | [] => [[]]
  | c :: s' =>
      if chr_eq sep c then [] :: split sep s'
      else match split sep s' with
           | l :: ls => (c :: l) :: ls
           | [] => [[c]]
           end
  end.

(** [sep.join(parts)]. *)
Fixpoint join (sep : str) (parts : list str) : str :=
  match parts with
  | [] => []
  | [l] => l
  | l :: ls => l ++ sep ++ join sep ls
  end.

(** [s[:n]], with Python's reading of a negative bound. *)
Definition slice_to (s : str) (n : Z) : str :=
  if (0 <=? n)%Z then take (Z.to_nat n) s
  else take (Z.to_nat (Z.of_nat (length s) + n)) s.

(** Highest index of [c] in [s], the head of [s] having index [i]. *)
Fixpoint find_from (c : ascii) (i : nat) (s : str) : option nat :=
  match s with
  | [] => None
  | x :: s' =>
      match find_from c (S i) s' with
      | Some j => Some j
      | None => if chr_eq c x then Some i else None
      end
  end.

(** [s.rfind(c)]: the highest index of [c], or -1. *)
Definition rfind (c : ascii) (s : str) : Z :=
  match find_from c 0 s with
  | Some j => Z.of_nat j
  | None => (-1)%Z
  end.

(** [s[-1] in chars] for a non-empty [s]. *)
Definition last_in (chars : str) (s : str) : bool :=
  match last s with
  | Some c => existsb (fun x => chr_eq x c) chars
  | None => false
  end.

End Str.
Import Str.

(** ** Python [re]: a backtracking matcher

    The fragment of the pattern language the program uses.  Repetition is
    over a character class only, which is all the patterns need and keeps
    the matcher structurally recursive.  Matching is Python's: alternatives
    and repetitions are tried in order, greedily, with backtracking. *)

Module Re.

Inductive regex : Type :=
| Empty                                      (* matches the empty string *)
| Char (p : ascii -> bool)                   (* one character of a class *)
| Cat (r1 r2 : regex)                        (* r1 r2 *)
| Or (r1 r2 : regex)                         (* r1|r2, r1 tried first *)
| Repeat (lo : nat) (p : ascii -> bool)      (* greedy [p]{lo,} *)
| WordBoundary                               (* \b *)
| Start                                      (* ^ without MULTILINE *)
| End.                                       (* $ without MULTILINE *)

Definition Star p := Repeat 0 p.             (* [p]* *)
Definition Plus p := Repeat 1 p.             (* [p]+ *)
Definition Opt r := Or r Empty.              (* r? *)

(** A literal under [re.IGNORECASE]. *)
Definition lit_char (x : ascii) : regex :=
  Char (fun c => chr_eq (lower_az x) (lower_az c)).
Definition lit (s : string) : regex :=
  fold_right (fun x r => Cat (lit_char x) r) Empty (L s).

Fixpoint alternatives (rs : list regex) : regex :=
  match rs with
  | [] => Empty
  | [r] => r
  | r :: rs' => Or r (alternatives rs')
  end.

(** A position in the subject is given by the characters before it, nearest
    first, and the characters from it on.  [\b] holds where exactly one of
    the two neighbours is a word character. *)
Definition at_boundary (before after : str) : bool :=
  xorb (from_option isword false (head before))
       (from_option isword false (head after)).

(** [$] holds at the end of the subject and before its final newline. *)
Definition at_end (after : str) : bool :=
  match after with
  | [] => true
  | [c] => chr_eq "010" c
  | _ => false
  end.

Section Matcher.
Context {X : Type}.
Abbreviation cont := (str -> str -> option X).

(** Greedy [p]*: take as many as possible, give back one at a time. *)
Fixpoint star_k (p : ascii -> bool) (k : cont) (before after : str) : option X :=
  match after with
  | c :: after' =>
      if p c then
        match star_k p k (c :: before) after' with
        | Some x => Some x
        | None => k before after
        end
      else k before after
  | [] => k before after
  end.

Fixpoint repeat_k (lo : nat) (p : ascii -> bool) (k : cont) (before after : str)
  : option X :=
  match lo with
  | O => star_k p k before after
  | S lo' =>
      match after with
      | c :: after' => if p c then repeat_k lo' p k (c :: before) after' else None
      | [] => None
      end
  end.

Fixpoint run (r : regex) (k : cont) (before after : str) : option X :=
  match r with
  | Empty => k before after
  | Char p =>
      match after with
      | c :: after' => if p c then k (c :: before) after' else None
      | [] => None
      end
  | Cat r1 r2 => run r1 (run r2 k) before after
  | Or r1 r2 =>
      match run r1 k before after with
      | Some x => Some x
      | None => run r2 k before after
      end
  | Repeat lo p => repeat_k lo p k before after
  | WordBoundary => if at_boundary before after then k before after else None
  | Start => match before with [] => k before after | _ => None end
  | End => if at_end after then k before after else None
  end.
End Matcher.

(** One match attempt at a position.  The result is what is left of the
    subject after the match.  With [must_advance] an empty match is
    rejected and the matcher backtracks for another one. *)
Definition match_here (r : regex) (must_advance : bool) (before after : str)
  : option str :=
  run r (fun _ rest =>
           if must_advance && (length rest =? length after) then None
           else Some rest)
      before after.

(** [re.match(r, s)] as a truth value. *)
Definition re_match (r : regex) (s : str) : bool :=
  match match_here r false [] s with Some _ => true | None => false end.

(** The scan of [re.sub]: [skip] counts the characters of the current
    match still to be passed over.  After an empty match the next match at
    the same place has to advance. *)
Fixpoint sub_scan (r : regex) (repl : str) (skip : nat) (before after : str) : str :=
  match after with
  | [] =>
      match skip, match_here r false before [] with
      | O, Some _ => repl
      | _, _ => []
      end
  | c :: after' =>
      match skip with
      | S n => sub_scan r repl n (c :: before) after'
      | O =>
          match match_here r false before after with
          | Some rest =>
              match length after - length rest with
              | S n => repl ++ sub_scan r repl n (c :: before) after'
              | O =>
                  repl ++
                  match match_here r true before after with
                  | Some rest' =>
                      repl ++ sub_scan r repl (length after' - length rest')
                                       (c :: before) after'
                  | None => c :: sub_scan r repl 0 (c :: before) after'
                  end
              end
          | None => c :: sub_scan r repl 0 (c :: before) after'
          end
      end
  end.

(** [re.sub(r, repl, s)]. *)
Definition re_sub (r : regex) (repl : str) (s : str) : str :=
  sub_scan r repl 0 [] s.

End Re.
Import Re.

(** ** The program *)

(** *** Configuration constants *)

Definition TITLE_PREFIX : str := L "Q&A: ".
Definition TITLE_MAX_LENGTH : Z := 60.

(** The binary64 number written [0.7]: 0x1.6666666666666p-1. *)
Definition TITLE_WORD_BOUNDARY_THRESHOLD : spec_float :=
  S754_finite false 6305039478318694 (-53).

(** Python's [float(n)] and float product, in binary64. *)
Definition float_of_int (n : Z) : spec_float := binary_normalize 53 1024 n 0 false.
Definition float_mul (x y : spec_float) : spec_float := SFmul 53 1024 x y.

(** [n > x] for an integer [n] and a float [x]; Python compares the exact
    values, which the conversion of [n] preserves below 2^53. *)
Definition int_gt_float (n : Z) (x : spec_float) : bool :=
  SFltb x (float_of_int n).

(** *** Patterns *)

Definition one_of (chars : string) (c : ascii) : bool :=
  existsb (fun x => chr_eq x c) (L chars).

(** r1 r2 ... rn *)
Definition cats (rs : list regex) : regex := fold_right Cat Empty rs.

(** [[A-Za-z0-9._%+-]] *)
Definition local_class (c : ascii) : bool :=
  is_upper_az c || is_lower_az c || is_digit c || one_of "._%+-" c.
(** [[A-Za-z0-9.-]] *)
Definition domain_class (c : ascii) : bool :=
  is_upper_az c || is_lower_az c || is_digit c || one_of ".-" c.
(** [[A-Z|a-z]]: the bar is a member of the class. *)
Definition tld_class (c : ascii) : bool :=
  is_upper_az c || chr_eq "|" c || is_lower_az c.

(** [\b[A-Za-z0-9._%+-]+@[A-Za-z0-9.-]+\.[A-Z|a-z]{2,}\b] *)
Definition email_pattern : regex :=
  cats [WordBoundary; Plus local_class; Char (chr_eq "@"); Plus domain_class;
        Char (chr_eq "."); Repeat 2 tld_class; WordBoundary].

(** [[\s,]], [[.!?]] and the dot (anything but a newline). *)
Definition space_or_comma (c : ascii) : bool := isspace c || chr_eq "," c.
Definition sentence_end (c : ascii) : bool := one_of ".!?" c.
Definition not_newline (c : ascii) : bool := negb (chr_eq "010" c).

(** [^\s*word[\s,]] and [^\s*word\s*:], under [re.IGNORECASE]. *)
Definition closing_line (word : string) : regex :=
  cats [Start; Star isspace; lit word; Char space_or_comma].
Definition header_line (word : string) : regex :=
  cats [Start; Star isspace; lit word; Star isspace; Char (chr_eq ":")].

Definition signature_patterns : list regex :=
  [ closing_line "thanks"; closing_line "thank you"; closing_line "regards";
    closing_line "best"; closing_line "cheers"; closing_line "sincerely";
    header_line "from"; header_line "sent"; header_line "to";
    header_line "cc"; header_line "bcc"; header_line "subject" ].

(** [(thanks|thank you|regards|best regards|best|cheers|sincerely)] *)
Definition inline_keywords : list string :=
  ["thanks"; "thank you"; "regards"; "best regards"; "best"; "cheers";
   "sincerely"]%string.
Definition keyword_group : regex := alternatives (map lit inline_keywords).

(** [[.!?]?\s+(...)[\s,]+.*$] *)
Definition inline_signature_pattern : regex :=
  cats [Opt (Char sentence_end); Plus isspace; keyword_group;
        Plus space_or_comma; Star not_newline; End].

(** [,\s+(...)[\s,]+.*$] *)
Definition inline_signature_pattern2 : regex :=
  cats [Char (chr_eq ","); Plus isspace; keyword_group;
        Plus space_or_comma; Star not_newline; End].

(** *** [redact_emails] *)

Definition redacted_marker : str := L "[redacted-email]".

Definition redact_emails (text : str) : str :=
  re_sub email_pattern redacted_marker text.

(** *** [remove_signature_lines] *)

(** The inner loop over [signature_patterns]. *)
Definition is_signature (line : str) : bool :=
  existsb (fun pattern => re_match pattern line) signature_patterns.

(** One turn of the loop over [lines]; the state is
    ([found_signature], [cleaned_lines]). *)
Definition scan_line (st : bool * list str) (line : str) : bool * list str :=
  let '(found_signature, cleaned_lines) := st in
  if found_signature then st
  else if is_signature line then (true, cleaned_lines)
  else (false, cleaned_lines ++ [line]).

Definition cleaned_lines (text : str) : list str :=
  snd (fold_left scan_line (split "010" text) (false, [])).

(** [result] once the kept lines are joined and stripped. *)
Definition joined_lines (text : str) : str :=
  strip (join newline (cleaned_lines text)).

(** The two substitutions on [result]. *)
Definition inline_trim1 (result : str) : str :=
  re_sub inline_signature_pattern [] result.
Definition inline_trim2 (result : str) : str :=
  re_sub inline_signature_pattern2 [] result.

(** "Clean up by ensuring proper sentence ending". *)
Definition end_sentence (result : str) : str :=
  let result := rstrip result in
  if negb (length result =? 0) && negb (last_in (L ".!?") result)
  then result ++ L "." else result.

Definition remove_signature_lines (text : str) : str :=
  strip (end_sentence (inline_trim2 (inline_trim1 (joined_lines text)))).

(** *** [sanitize_content] *)

Definition sanitize_content (content : str) : str :=
  let content := redact_emails content in
  let content := remove_signature_lines content in
  strip content.

(** *** [generate_title] *)

Definition generate_title (content : str) (max_length : Z) : str :=
  let title_content := slice_to content max_length in
  let title_content :=
    if (max_length <? Z.of_nat (length content))%Z then
      let last_space := rfind " " title_content in
      let title_content :=
        if int_gt_float last_space
             (float_mul (float_of_int max_length) TITLE_WORD_BOUNDARY_THRESHOLD)
        then slice_to title_content last_space
        else title_content in
      title_content ++ L "..."
    else title_content in
  TITLE_PREFIX ++ title_content.

(** *** [filter_questions] *)

(** A CSV row as the annotation of the functions has it, [Dict[str, str]]:
    a dictionary from column names to strings.  The rows that the CSV
    reader yields, which may hold [None], are in [Loaded] below. *)
Abbreviation row := (gmap str str).

(** [row.get(key, '')] *)
Definition get (r : row) (key : string) : str := default [] (r !! L key).

Definition is_attendee_question (r : row) : bool :=
  bool_decide (upper (get r "Source") = L "ATTENDEE")
  && bool_decide (upper (get r "Type") = L "QUESTION").

Definition filter_questions (rows : list row) : list row :=
  fold_left (fun filtered r =>
               if is_attendee_question r then filtered ++ [r] else filtered)
            rows [].

(** *** [filter_questions] on the rows that the CSV reader yields

    [csv.DictReader] gives a row the text of each of its fields, [None] for
    a field that a line shorter than the header lacks and, under the key
    [None], the list of the fields that a longer line has beyond the header.
    The annotation leaves the last two out; [filter_questions] meets them
    in the rows that [read_csv_file] returns. *)

Module Loaded.

Inductive value :=
| Text (s : str)
| NoValue
| Rest (fields : list str).

Abbreviation row := (gmap (option str) value).

(** What a call can raise. *)
Inductive exception :=
| AttributeError.

Inductive result (A : Type) :=
| Ok (a : A)
| Raise (e : exception).

Arguments Ok {A} a.
Arguments Raise {A} e.

(** [row.get(key, '')] *)
Definition get (r : row) (key : string) : value :=
  default (Text []) (r !! Some (L key)).

(** [v.upper()]: a string has the method, [None] and a list do not. *)
Definition py_upper (v : value) : result str :=
  match v with
  | Text s => Ok (upper s)
  | _ => Raise AttributeError
  end.

(** The condition of the loop.  [and] evaluates its second operand only
    when the first one holds. *)
Definition is_attendee_question (r : row) : result bool :=
  match py_upper (get r "Source") with
  | Raise e => Raise e
  | Ok source =>
      if bool_decide (source = L "ATTENDEE") then
        match py_upper (get r "Type") with
        | Raise e => Raise e
        | Ok kind => Ok (bool_decide (kind = L "QUESTION"))
        end
      else Ok false
  end.

Fixpoint filter_loop (rows filtered : list row) : result (list row) :=
  match rows with
  | [] => Ok filtered
  | r :: rows =>
      match is_attendee_question r with
      | Raise e => Raise e
      | Ok true => filter_loop rows (filtered ++ [r])
      | Ok false => filter_loop rows filtered
      end
  end.

Definition filter_questions (rows : list row) : result (list row) :=
  filter_loop rows [].

End Loaded.


(** ** What a pattern matches

    [matches r before w after]: between the text [before] (nearest character
    first) and the text [after], the pattern [r] can match exactly [w]. *)

Fixpoint matches (r : regex) (before w after : str) : Prop :=
  match r with
  | Empty => w = []
  | Char p => exists c, w = [c] /\ p c = true
  | Cat r1 r2 =>
      exists w1 w2, w = w1 ++ w2 /\ matches r1 before w1 (w2 ++ after)
                    /\ matches r2 (rev w1 ++ before) w2 after
  | Or r1 r2 => matches r1 before w after \/ matches r2 before w after
  | Repeat lo p => lo <= length w /\ Forall (fun c => p c = true) w
  | WordBoundary => w = [] /\ at_boundary before after = true
  | Start => w = [] /\ before = []
  | End => w = [] /\ at_end after = true
  end.

(** A pattern that never matches the empty string. *)
Definition never_empty (r : regex) : Prop :=
  forall before w after, matches r before w after -> w <> [].

(** [w] occurs in [s] between [pre] and [post] and matches [r] there. *)
Definition occurs (r : regex) (s pre w post : str) : Prop :=
  s = pre ++ w ++ post /\ matches r (rev pre) w post.

(** No part of [s] matches [r]. *)
Definition free_of (r : regex) (s : str) : Prop :=
  forall pre w post, ~ occurs r s pre w post.

(** Positions of [s] at which a match attempt succeeds. *)
Fixpoint match_positions (r : regex) (i : nat) (before after : str) : list nat :=
  match match_here r false before after with Some _ => [i] | None => [] end ++
  match after with
  | [] => []
  | c :: after' => match_positions r (S i) (c :: before) after'
  end.

(** A pattern whose matches all run to the end of the text (as [$] reads it)
    and take two characters or more. *)
Definition to_the_end (r : regex) : Prop :=
  forall before w after, matches r before w after ->
                         at_end after = true /\ 2 <= length w.

(** ** Notions used in the statements *)

(** [p] is the index of the last space of [s]; [s] has no space. *)
Definition last_space_at (p : nat) (s : str) : Prop :=
  s !! p = Some " "%char /\ forall j, p < j -> s !! j <> Some " "%char.
Definition no_space (s : str) : Prop :=
  forall j, s !! j <> Some " "%char.

(** A float that is not below zero (or is not a number). *)
Definition not_negative (x : spec_float) : Prop :=
  match x with
  | S754_zero false | S754_infinity false | S754_finite false _ _ | S754_nan => True
  | _ => False
  end.

(** [x] and [y] are equal up to the case of the letters a-z. *)
Definition same_ignoring_case (x y : str) : Prop :=
  map lower_az x = map lower_az y.

#[global] Instance same_ignoring_case_dec x y : Decision (same_ignoring_case x y).
Proof. unfold same_ignoring_case. apply _. Defined.

(** A row whose [Source] is the attendee role and whose [Type] is the
    question kind, in any letter case. *)
Definition attendee_question (r : row) : Prop :=
  same_ignoring_case (get r "Source") (L "ATTENDEE")
  /\ same_ignoring_case (get r "Type") (L "QUESTION").

#[global] Instance attendee_question_dec r : Decision (attendee_question r).
Proof. unfold attendee_question. apply _. Defined.

(** The text of a field of a row that the CSV reader yields; the empty
    string for a field that the row does not have. *)
Definition field_text (r : Loaded.row) (key : string) : str :=
  match r !! Some (L key) with
  | Some (Loaded.Text s) => s
  | _ => []
  end.

(** A row to select: its [Source] is the attendee role and its [Type] the
    question kind, in any letter case. *)
Definition selected (r : Loaded.row) : Prop :=
  same_ignoring_case (field_text r "Source") (L "ATTENDEE")
  /\ same_ignoring_case (field_text r "Type") (L "QUESTION").

#[global] Instance selected_dec r : Decision (selected r).
Proof. unfold selected. apply _. Defined.



(** A row of strings among the rows that the reader yields. *)
Definition as_loaded (r : row) : Loaded.row :=
  kmap Some (Loaded.Text <$> r).

(** The closing words and the header words of [signature_patterns]. *)
Definition closing_words : list string :=
  ["thanks"; "thank you"; "regards"; "best"; "cheers"; "sincerely"]%string.
Definition header_words : list string :=
  ["from"; "sent"; "to"; "cc"; "bcc"; "subject"]%string.

(** [w] is one of [words], in any letter case. *)
Definition keyword (words : list string) (w : str) : Prop :=
  exists kw, In kw words /\ map lower_az w = L kw.

(** A line that starts, after optional whitespace, with a closing word and
    then a whitespace character or a comma, or with a header word, optional
    whitespace and a colon. *)
Definition line_cue (line : str) : Prop :=
  exists ws w rest,
    line = ws ++ w ++ rest /\ Forall (fun c => isspace c = true) ws
    /\ ((keyword closing_words w
         /\ exists c rest', rest = c :: rest' /\ space_or_comma c = true)
        \/ (keyword header_words w
            /\ exists ws' rest', rest = ws' ++ ":"%char :: rest'
                                 /\ Forall (fun c => isspace c = true) ws')).

(** A line that is a closing word and nothing more. *)
Definition bare_closing (line : str) : Prop :=
  exists ws w, line = ws ++ w /\ Forall (fun c => isspace c = true) ws
               /\ keyword closing_words w.

(** The lines before the first one that [cue] accepts. *)
Fixpoint lines_before (cue : str -> bool) (lines : list str) : list str :=
  match lines with
  | [] => []
  | l :: ls => if cue l then [] else l :: lines_before cue ls
  end.


(** An inline cue: a lead-in [p] accepted by [lead], one or more whitespace
    characters, a keyword of the group in any letter case, one or more
    whitespace characters or commas, and a remainder free of newlines. *)
Definition inline_cue (lead : str -> Prop) (u : str) : Prop :=
  exists p ws kw sep rest,
    u = p ++ ws ++ kw ++ sep ++ rest /\ lead p
    /\ ws <> [] /\ Forall (fun c => isspace c = true) ws
    /\ keyword inline_keywords kw
    /\ sep <> [] /\ Forall (fun c => space_or_comma c = true) sep
    /\ Forall (fun c => not_newline c = true) rest.

(** The lead-in of the first pattern, an optional period, exclamation mark or
    question mark, and of the second, a comma. *)
Definition optional_sentence_end (p : str) : Prop :=
  p = [] \/ exists c, p = [c] /\ sentence_end c = true.
Definition one_comma (p : str) : Prop := p = [","%char].

(** What [$] accepts after a match: the end of the text, or its final
    newline. *)
Definition final (tail : str) : Prop := tail = [] \/ tail = newline.

(** The shape shared by the two inline patterns. *)
Definition inline_pattern (lead : regex) : regex :=
  cats [lead; Plus isspace; keyword_group; Plus space_or_comma;
        Star not_newline; End].

(** Whether the neighbour of a position is a word character; no neighbour
    counts as none. *)
Definition wordy (o : option ascii) : bool := from_option isword false o.

(** The characters an address can hold. *)
Definition email_char (c : ascii) : bool :=
  local_class c || domain_class c || tld_class c || chr_eq "@" c.

(** The shape [email_pattern] accepts between its two word boundaries: a
    local part, the at sign, a domain, a dot and a last label. *)
Definition email_shape (w : str) : Prop :=
  exists l d t,
    w = l ++ "@"%char :: d ++ "."%char :: t
    /\ l <> [] /\ Forall (fun c => local_class c = true) l
    /\ d <> [] /\ Forall (fun c => domain_class c = true) d
    /\ 2 <= length t /\ Forall (fun c => tld_class c = true) t.

(** ** The specification's wording, for comparison with the code *)

Module AsSpecified.

(** "tld: two or more alphabetic characters". *)
Definition tld_class (c : ascii) : bool := is_upper_az c || is_lower_az c.

Definition email_pattern : regex :=
  cats [WordBoundary; Plus local_class; Char (chr_eq "@"); Plus domain_class;
        Char (chr_eq "."); Repeat 2 tld_class; WordBoundary].

Definition redact_emails (text : str) : str :=
  re_sub email_pattern redacted_marker text.

(** A keyword "optionally followed by comma/whitespace", and a mail header
    prefix such as [from:], at the start of a line after optional
    whitespace, in any letter case. *)
Definition closing_line (word : string) : regex :=
  cats [Start; Star isspace; lit word; Opt (Char space_or_comma)].
Definition header_line (word : string) : regex :=
  cats [Start; Star isspace; lit word; Char (chr_eq ":")].

Definition signature_patterns : list regex :=
  map closing_line closing_words ++ map header_line header_words.

Definition is_signature (line : str) : bool :=
  existsb (fun pattern => re_match pattern line) signature_patterns.

Definition cleaned_lines (text : str) : list str :=
  lines_before is_signature (split "010" text).

(** "an optional sentence-ending punctuation mark followed by whitespace
    and one of the signature keywords". *)
Definition inline_cue : regex :=
  cats [Opt (Char sentence_end); Plus isspace; keyword_group].

(** Remove "the suffix starting at the last occurrence": the highest
    position at which the cue matches. *)
Definition inline_trim1 (result : str) : str :=
  match last (match_positions inline_cue 0 [] result) with
  | Some i => take i result
  | None => result
  end.

(** Back off to the last space "if and only if that space's position is at
    least max_length * threshold", the threshold being 7/10. *)
Definition generate_title (content : str) (max_length : Z) : str :=
  let title_content := slice_to content max_length in
  let title_content :=
    if (max_length <? Z.of_nat (length content))%Z then
      let last_space := rfind " " title_content in
      (if (0 <=? last_space)%Z && (7 * max_length <=? 10 * last_space)%Z
       then slice_to title_content last_space else title_content)
      ++ L "..."
    else title_content in
  TITLE_PREFIX ++ title_content.

End AsSpecified.

(** * Proofs *)

(** ** Evaluations *)

(** C1 (defect in the code). The class written [[A-Z|a-z]] holds the bar, so
    the redaction takes [a@b.c|d] for an address although its last label is
    not alphabetic; with the alphabetic class of the specification the text
    has no address and stays as it is. *)
Theorem redact_emails_bar_in_tld :
  redact_emails (L "ping a@b.c|d now") = L "ping [redacted-email] now"
  /\ AsSpecified.redact_emails (L "ping a@b.c|d now") = L "ping a@b.c|d now".
Proof. split; vm_compute; reflexivity. Qed.

(** C5 (defect in the code). On the example of the specification the inline
    pattern takes the question mark with the signature, and a period is put
    in its place: the sanitized text and the title end in a period. *)
Theorem sanitize_example_drops_question_mark :
  sanitize_content (L "How do I enable the feature? Thanks, John Smith")
    = L "How do I enable the feature."
  /\ generate_title
       (sanitize_content (L "How do I enable the feature? Thanks, John Smith"))
       TITLE_MAX_LENGTH
     = L "Q&A: How do I enable the feature.".
Proof. split; vm_compute; reflexivity. Qed.

(** ** The matcher against the declarative reading *)

Section Engine.
Context {X : Type}.
Implicit Types (k : str -> str -> option X) (p : ascii -> bool).

Lemma rev_cons_app (c : ascii) (w b : str) : rev (c :: w) ++ b = rev w ++ c :: b.
Proof. simpl. rewrite <- app_assoc. reflexivity. Qed.

Lemma star_k_sound p k b a x :
  star_k p k b a = Some x ->
  exists w a', a = w ++ a' /\ Forall (fun c => p c = true) w
               /\ k (rev w ++ b) a' = Some x.
Proof.
  revert b. induction a as [|c a IH]; intros b H; simpl in H.
  - exists [], []. auto.
  - destruct (p c) eqn:Hp; [|exists [], (c :: a); auto].
    destruct (star_k p k (c :: b) a) eqn:Hs; [|exists [], (c :: a); auto].
    inversion H; subst. destruct (IH _ Hs) as (w & a' & -> & Hw & Hk).
    exists (c :: w), a'. rewrite rev_cons_app. auto.
Qed.

Lemma star_k_base p k b a : is_Some (k b a) -> is_Some (star_k p k b a).
Proof.
  intros H. destruct a as [|c a]; simpl; [done|].
  destruct (p c); [|done]. destruct (star_k p k (c :: b) a); eauto.
Qed.

Lemma star_k_complete p k b w a' :
  Forall (fun c => p c = true) w -> is_Some (k (rev w ++ b) a') ->
  is_Some (star_k p k b (w ++ a')).
Proof.
  intros Hw. revert b. induction Hw as [|c w Hc Hw IH]; intros b Hk.
  - by apply star_k_base.
  - simpl. rewrite Hc. rewrite rev_cons_app in Hk.
    destruct (IH _ Hk) as [x ->]. eauto.
Qed.

Lemma repeat_k_sound lo p k b a x :
  repeat_k lo p k b a = Some x ->
  exists w a', a = w ++ a' /\ lo <= length w
               /\ Forall (fun c => p c = true) w /\ k (rev w ++ b) a' = Some x.
Proof.
  revert b a. induction lo as [|lo IH]; intros b a H; simpl in H.
  - destruct (star_k_sound _ _ _ _ _ H) as (w & a' & ? & ? & ?).
    exists w, a'. repeat split; auto. lia.
  - destruct a as [|c a]; [done|]. destruct (p c) eqn:Hp; [|done].
    destruct (IH _ _ H) as (w & a' & -> & Hlo & Hw & Hk).
    exists (c :: w), a'. rewrite rev_cons_app. repeat split; auto. simpl; lia.
Qed.

Lemma repeat_k_complete lo p k b w a' :
  lo <= length w -> Forall (fun c => p c = true) w ->
  is_Some (k (rev w ++ b) a') -> is_Some (repeat_k lo p k b (w ++ a')).
Proof.
  revert b w. induction lo as [|lo IH]; intros b w Hlo Hw Hk; simpl.
  - by apply star_k_complete.
  - destruct Hw as [|c w Hc Hw]; simpl in Hlo |- *; [lia|]. rewrite Hc.
    rewrite rev_cons_app in Hk. apply IH; auto. lia.
Qed.
End Engine.

Lemma run_sound {X} r : forall (k : str -> str -> option X) b a x,
  run r k b a = Some x ->
  exists w a', a = w ++ a' /\ matches r b w a' /\ k (rev w ++ b) a' = Some x.
Proof.
  induction r as [|p|r1 IH1 r2 IH2|r1 IH1 r2 IH2|lo p| | |]; intros k b a x H; simpl in H.
  - exists [], a. simpl. auto.
  - destruct a as [|c a]; [done|]. destruct (p c) eqn:Hp; [|done].
    exists [c], a. simpl. eauto.
  - destruct (IH1 _ _ _ _ H) as (w1 & a1 & -> & M1 & H1).
    destruct (IH2 _ _ _ _ H1) as (w2 & a2 & -> & M2 & H2).
    exists (w1 ++ w2), a2. rewrite rev_app_distr, <- !app_assoc.
    split; [done|]. split; [|done]. simpl. eauto.
  - destruct (run r1 k b a) eqn:E1.
    + inversion H; subst. destruct (IH1 _ _ _ _ E1) as (w & a' & ? & ? & ?).
      exists w, a'. simpl. auto.
    + destruct (IH2 _ _ _ _ H) as (w & a' & ? & ? & ?).
      exists w, a'. simpl. auto.
  - destruct (repeat_k_sound _ _ _ _ _ _ H) as (w & a' & ? & ? & ? & ?).
    exists w, a'. simpl. auto.
  - destruct (at_boundary b a) eqn:E; [|done]. exists [], a. simpl. auto.
  - destruct b; [|done]. exists [], a. simpl. auto.
  - destruct (at_end a) eqn:E; [|done]. exists [], a. simpl. auto.
Qed.

Lemma run_complete {X} r : forall (k : str -> str -> option X) b w a',
  matches r b w a' -> is_Some (k (rev w ++ b) a') -> is_Some (run r k b (w ++ a')).
Proof.
  induction r as [|p|r1 IH1 r2 IH2|r1 IH1 r2 IH2|lo p| | |]; intros k b w a' M Hk; simpl in M |- *.
  - by subst.
  - destruct M as (c & -> & Hp). simpl. by rewrite Hp.
  - destruct M as (w1 & w2 & -> & M1 & M2). rewrite <- app_assoc.
    apply IH1; [done|]. apply IH2; [done|].
    by rewrite rev_app_distr, <- app_assoc in Hk.
  - destruct (run r1 k b (w ++ a')) eqn:E1; [eauto|].
    destruct M as [M|M]; [|by apply IH2].
    destruct (IH1 _ _ _ _ M Hk) as [x Hx]. congruence.
  - destruct M. by apply repeat_k_complete.
  - destruct M as [-> M]. simpl in *. by rewrite M.
  - destruct M as [-> ->]. done.
  - destruct M as [-> M]. simpl in *. by rewrite M.
Qed.

(** A match attempt succeeds exactly where the pattern matches. *)
Lemma match_here_sound r adv b a rest :
  match_here r adv b a = Some rest ->
  exists w, a = w ++ rest /\ matches r b w rest /\ (adv = true -> w <> []).
Proof.
  unfold match_here. intros H.
  destruct (run_sound _ _ _ _ _ H) as (w & a' & -> & M & Hk).
  destruct (adv && (length a' =? length (w ++ a'))) eqn:E; [done|].
  inversion Hk; subst. exists w. repeat split; auto.
  intros -> ->. simpl in E. by rewrite Nat.eqb_refl in E.
Qed.

Lemma match_here_complete r adv b w rest :
  matches r b w rest -> (adv = true -> w <> []) ->
  is_Some (match_here r adv b (w ++ rest)).
Proof.
  intros M Hw. unfold match_here. apply run_complete; [done|].
  destruct (adv && (length rest =? length (w ++ rest))) eqn:E; [|done].
  apply andb_true_iff in E as [-> E]. apply Nat.eqb_eq in E.
  rewrite length_app in E. destruct w; [by destruct Hw|simpl in E; lia].
Qed.

Lemma match_here_none r b w rest :
  match_here r false b (w ++ rest) = None -> ~ matches r b w rest.
Proof.
  intros H M. destruct (match_here_complete r false b w rest M) as [x Hx]; [done|].
  congruence.
Qed.

(** ** The scan of [re.sub] *)

Lemma sub_scan_skip r repl w : forall b rest,
  sub_scan r repl (length w) b (w ++ rest) = sub_scan r repl 0 (rev w ++ b) rest.
Proof.
  induction w as [|c w IH]; intros b rest; [done|].
  rewrite rev_cons_app, <- IH. reflexivity.
Qed.

Lemma sub_scan_nil r repl b : never_empty r -> sub_scan r repl 0 b [] = [].
Proof.
  intros Hne. simpl. destruct (match_here r false b []) eqn:E; [|done].
  destruct (match_here_sound _ _ _ _ _ E) as (w & Hw & M & _).
  destruct w; [|done]. by destruct (Hne _ _ _ M).
Qed.

Lemma sub_scan_copy r repl b c a :
  match_here r false b (c :: a) = None ->
  sub_scan r repl 0 b (c :: a) = c :: sub_scan r repl 0 (c :: b) a.
Proof. intros H. simpl. by rewrite H. Qed.

Lemma sub_scan_match r repl b a rest :
  never_empty r -> match_here r false b a = Some rest ->
  exists w, a = w ++ rest /\ w <> [] /\ matches r b w rest
            /\ sub_scan r repl 0 b a = repl ++ sub_scan r repl 0 (rev w ++ b) rest.
Proof.
  intros Hne E. destruct (match_here_sound _ _ _ _ _ E) as (w & -> & M & _).
  pose proof (Hne _ _ _ M) as Hw. exists w. repeat split; auto.
  destruct w as [|c w]; [done|]. rewrite rev_cons_app, <- sub_scan_skip.
  simpl. change (c :: w ++ rest) with ((c :: w) ++ rest). rewrite E.
  replace (Datatypes.S (length (w ++ rest)) - length rest) with (Datatypes.S (length w))
    by (rewrite length_app; lia).
  reflexivity.
Qed.

(** How one round of the scan goes, for a pattern without empty matches. *)
Lemma sub_scan_cases r repl b a :
  never_empty r ->
  (a = [] /\ sub_scan r repl 0 b a = [])
  \/ (exists c a', a = c :: a' /\ match_here r false b a = None
                   /\ sub_scan r repl 0 b a = c :: sub_scan r repl 0 (c :: b) a')
  \/ (exists w rest, a = w ++ rest /\ w <> [] /\ matches r b w rest
                     /\ sub_scan r repl 0 b a
                        = repl ++ sub_scan r repl 0 (rev w ++ b) rest).
Proof.
  intros Hne. destruct (match_here r false b a) as [rest|] eqn:E.
  - right; right. destruct (sub_scan_match r repl b a rest Hne E) as (w & ?).
    exists w, rest. tauto.
  - destruct a as [|c a].
    + left. split; [done|]. by apply sub_scan_nil.
    + right; left. exists c, a. split; [done|]. split; [done|].
      by apply sub_scan_copy.
Qed.

(** Where no match attempt succeeds the text is copied. *)
Lemma sub_scan_no_match r repl : never_empty r -> forall a b,
  (forall pre w post, a = pre ++ w ++ post -> ~ matches r (rev pre ++ b) w post) ->
  sub_scan r repl 0 b a = a.
Proof.
  intros Hne. induction a as [|c a IH]; intros b Hno.
  - by apply sub_scan_nil.
  - destruct (sub_scan_cases r repl b (c :: a) Hne)
      as [[? _]|[(c' & a' & Ha & _ & ->)|(w & rest & Ha & _ & M & _)]]; [done| |].
    + inversion Ha; subst. f_equal. apply IH. intros pre w post -> M.
      apply (Hno (c' :: pre) w post); [done|]. by rewrite rev_cons_app.
    + destruct (Hno [] w rest Ha M).
Qed.

Lemma re_sub_free r repl s : never_empty r -> free_of r s -> re_sub r repl s = s.
Proof.
  intros Hne Hfree. apply sub_scan_no_match; [done|].
  intros pre w post -> M. apply (Hfree pre w post). split; [done|].
  by rewrite app_nil_r in M.
Qed.

Lemma at_end_cases a : at_end a = true -> a = [] \/ a = ["010"%char].
Proof.
  destruct a as [|c [|? ?]]; simpl; auto; [|done].
  intros H. right. f_equal. unfold chr_eq, code in H. apply N.eqb_eq in H.
  rewrite <- (ascii_N_embedding c), <- H. reflexivity.
Qed.

(** Such a pattern is replaced once, at the leftmost place where it matches;
    what is left after the match is nothing or a final newline. *)
Lemma sub_scan_to_the_end r : never_empty r -> to_the_end r -> forall a b,
  ((forall pre w post, a = pre ++ w ++ post -> ~ matches r (rev pre ++ b) w post)
   /\ sub_scan r [] 0 b a = a)
  \/ (exists pre w rest,
        a = pre ++ w ++ rest /\ matches r (rev pre ++ b) w rest
        /\ (forall pre' w' post', a = pre' ++ w' ++ post' ->
              matches r (rev pre' ++ b) w' post' -> length pre <= length pre')
        /\ sub_scan r [] 0 b a = pre ++ rest).
Proof.
  intros Hne Hend. induction a as [|c a IH]; intros b.
  - left. split; [|by apply sub_scan_nil].
    intros pre w post Ha M. apply Hne in M.
    destruct pre; [|done]. destruct w; done.
  - destruct (sub_scan_cases r [] b (c :: a) Hne)
      as [[? _]|[(c' & a' & Ha & Hnone & Hout)|(w & rest & Ha & Hw & M & Hout)]]; [done| |].
    + inversion Ha; subst c' a'; clear Ha. rewrite Hout.
      assert (Hhere : forall w post, c :: a = w ++ post -> ~ matches r b w post).
      { intros w post E. apply match_here_none. by rewrite <- E. }
      destruct (IH (c :: b)) as [[Hno Hsub]|(pre & w & rest & Ea & M & Hleft & Hsub)];
        rewrite Hsub.
      * left. split; [|done]. intros [|c' pre] w post E.
        -- apply Hhere. exact E.
        -- injection E as <- E. rewrite rev_cons_app. by apply Hno.
      * right. exists (c :: pre), w, rest. rewrite rev_cons_app.
        split; [by rewrite Ea|]. split; [done|]. split; [|done].
        intros [|c' pre'] w' post' E M'.
        -- destruct (Hhere w' post' E M').
        -- injection E as <- E. rewrite rev_cons_app in M'.
           specialize (Hleft _ _ _ E M'). simpl. lia.
    + right. exists [], w, rest. repeat split; auto; [simpl; lia|].
      rewrite Hout. simpl. destruct (Hend _ _ _ M) as [He _].
      destruct (at_end_cases _ He) as [->| ->]; [by apply sub_scan_nil|].
      destruct (sub_scan_cases r [] (rev w ++ b) ["010"%char] Hne)
        as [[? _]|[(c' & a' & Ha' & _ & ->)|(w' & rest' & Ha' & _ & M' & _)]]; [done| |].
      * inversion Ha'; subst. by rewrite sub_scan_nil.
      * apply Hend in M' as [_ Hlen].
        apply (f_equal length) in Ha'. rewrite length_app in Ha'. simpl in Ha'. lia.
Qed.

(** ** Reading the patterns *)

Lemma chr_eq_true x c : chr_eq x c = true <-> x = c.
Proof.
  unfold chr_eq, code. rewrite N.eqb_eq. split; [|by intros ->].
  intros H. by rewrite <- (ascii_N_embedding x), H, ascii_N_embedding.
Qed.

Lemma one_of_true chars c : one_of chars c = true <-> In c (L chars).
Proof.
  unfold one_of. rewrite existsb_exists. split.
  - intros (x & Hx & E). apply chr_eq_true in E. by subst.
  - intros H. exists c. split; [done|]. by apply chr_eq_true.
Qed.

Lemma matches_lit s : forall b w a,
  matches (lit s) b w a <-> map lower_az w = map lower_az (L s).
Proof.
  unfold lit. induction (L s) as [|x l IH]; intros b w a; simpl.
  - split; [by intros ->|]. by destruct w.
  - split.
    + intros (w1 & w2 & -> & (c & -> & Hc) & M). apply IH in M.
      apply chr_eq_true in Hc. simpl. by rewrite M, Hc.
    + destruct w as [|c w]; [done|]. simpl. intros [= Hc Hw].
      exists [c], w. split; [done|]. split.
      * exists c. split; [done|]. by apply chr_eq_true.
      * by apply IH.
Qed.

Lemma matches_alternatives rs b w a :
  rs <> [] -> matches (alternatives rs) b w a <-> Exists (fun r => matches r b w a) rs.
Proof.
  induction rs as [|r rs IH]; [done|]. intros _.
  rewrite Exists_cons. destruct rs as [|r' rs].
  - simpl. rewrite Exists_nil. tauto.
  - change (alternatives (r :: r' :: rs)) with (Or r (alternatives (r' :: rs))).
    simpl matches. by rewrite IH.
Qed.

(** [w] is one of [words], in any letter case. *)
Lemma matches_keyword_group b w a :
  matches keyword_group b w a <->
  exists kw, In kw inline_keywords /\ map lower_az w = L kw.
Proof.
  unfold keyword_group. rewrite matches_alternatives by done.
  rewrite Exists_exists. split.
  - intros (r & Hr & M). apply list_elem_of_In, in_map_iff in Hr as (kw & <- & Hkw).
    exists kw. split; [done|]. apply matches_lit in M. rewrite M.
    simpl in Hkw. by repeat (destruct Hkw as [<-|Hkw]; [reflexivity|]).
  - intros (kw & Hkw & E). exists (lit kw). split; [by apply list_elem_of_In, in_map|].
    apply matches_lit. rewrite E.
    simpl in Hkw. by repeat (destruct Hkw as [<-|Hkw]; [reflexivity|]).
Qed.

Lemma matches_cats_cons r rs b w a :
  matches (cats (r :: rs)) b w a <->
  exists w1 w2, w = w1 ++ w2 /\ matches r b w1 (w2 ++ a)
                /\ matches (cats rs) (rev w1 ++ b) w2 a.
Proof. reflexivity. Qed.

Lemma matches_cats_nil b w a : matches (cats []) b w a <-> w = [].
Proof. reflexivity. Qed.

Lemma re_match_true r s :
  re_match r s = true <-> exists w rest, s = w ++ rest /\ matches r [] w rest.
Proof.
  unfold re_match. split.
  - destruct (match_here r false [] s) as [rest|] eqn:E; [|done]. intros _.
    destruct (match_here_sound _ _ _ _ _ E) as (w & ? & ? & _). eauto.
  - intros (w & rest & -> & M).
    by destruct (match_here_complete r false [] w rest M) as [x ->].
Qed.

(** ** Stripping *)

Lemma drop_while_split p s :
  exists pre, s = pre ++ drop_while p s /\ Forall (fun c => p c = true) pre.
Proof.
  induction s as [|c s (pre & E & Hpre)]; simpl.
  - by exists [].
  - destruct (p c) eqn:Hp; [|by exists []].
    exists (c :: pre). split; [by rewrite E at 1|]. by constructor.
Qed.

Lemma drop_while_head p s c : head (drop_while p s) = Some c -> p c = false.
Proof.
  induction s as [|x s IH]; simpl; [done|].
  destruct (p x) eqn:Hp; [done|]. simpl. by intros [= <-].
Qed.

Lemma drop_while_id p s :
  (forall c, head s = Some c -> p c = false) -> drop_while p s = s.
Proof. destruct s as [|c s]; simpl; [done|]. intros H. by rewrite (H c). Qed.

Lemma head_rev (s : str) : head (rev s) = last s.
Proof.
  induction s as [|c s IH] using rev_ind; [done|].
  by rewrite rev_app_distr, last_snoc.
Qed.

Lemma lstrip_split s :
  exists pre, s = pre ++ lstrip s /\ Forall (fun c => isspace c = true) pre.
Proof. apply drop_while_split. Qed.

Lemma rstrip_split s :
  exists post, s = rstrip s ++ post /\ Forall (fun c => isspace c = true) post.
Proof.
  unfold rstrip. destruct (drop_while_split isspace (rev s)) as (pre & E & Hpre).
  exists (rev pre). split.
  - by rewrite <- rev_app_distr, <- E, rev_involutive.
  - apply Forall_forall. intros c Hc. apply list_elem_of_In, in_rev in Hc.
    rewrite Forall_forall in Hpre. by apply Hpre, list_elem_of_In.
Qed.

Lemma lstrip_head s c : head (lstrip s) = Some c -> isspace c = false.
Proof. apply drop_while_head. Qed.

Lemma rstrip_last s c : last (rstrip s) = Some c -> isspace c = false.
Proof. unfold rstrip. rewrite <- head_rev, rev_involutive. apply drop_while_head. Qed.

Lemma lstrip_id s : (forall c, head s = Some c -> isspace c = false) -> lstrip s = s.
Proof. apply drop_while_id. Qed.

Lemma rstrip_id s : (forall c, last s = Some c -> isspace c = false) -> rstrip s = s.
Proof.
  intros H. unfold rstrip. rewrite drop_while_id; [apply rev_involutive|].
  intros c. rewrite head_rev. apply H.
Qed.

Lemma rstrip_rstrip s : rstrip (rstrip s) = rstrip s.
Proof. apply rstrip_id, rstrip_last. Qed.

(** Stripping on the left keeps the last character of a text that does not
    end in whitespace, and whatever is put after such a text. *)
Lemma lstrip_app s t c :
  last s = Some c -> isspace c = false -> lstrip (s ++ t) = lstrip s ++ t.
Proof.
  unfold lstrip. induction s as [|x s IH]; [done|]. intros Hl Hc. simpl.
  destruct (isspace x) eqn:Hx; [|done].
  destruct s as [|y s]; [simpl in Hl; congruence|]. by apply IH.
Qed.

Lemma lstrip_last s c : last s = Some c -> isspace c = false -> last (lstrip s) = Some c.
Proof.
  unfold lstrip. induction s as [|x s IH]; [done|]. intros Hl Hc. simpl.
  destruct (isspace x) eqn:Hx; [|done].
  destruct s as [|y s]; [simpl in Hl; congruence|]. by apply IH.
Qed.

Lemma strip_id s :
  (forall c, head s = Some c -> isspace c = false) ->
  (forall c, last s = Some c -> isspace c = false) -> strip s = s.
Proof. intros Hh Hl. unfold strip. by rewrite rstrip_id, lstrip_id. Qed.

Lemma strip_ends s :
  (forall c, head (strip s) = Some c -> isspace c = false)
  /\ (forall c, last (strip s) = Some c -> isspace c = false).
Proof.
  unfold strip. split; [apply lstrip_head|].
  intros c Hc. destruct (last (rstrip s)) as [x|] eqn:Hx.
  - pose proof (rstrip_last _ _ Hx) as Hsp.
    rewrite (lstrip_last _ _ Hx Hsp) in Hc. congruence.
  - apply last_None in Hx. by rewrite Hx in Hc.
Qed.

Lemma strip_strip s : strip (strip s) = strip s.
Proof. destruct (strip_ends s). by apply strip_id. Qed.

Lemma last_in_true chars s :
  last_in chars s = true <-> exists c, last s = Some c /\ In c chars.
Proof.
  unfold last_in. destruct (last s) as [c|]; [|split; [done|by intros (? & ? & _)]].
  rewrite existsb_exists. split.
  - intros (x & Hx & E). apply chr_eq_true in E. subst. eauto.
  - intros (x & [= <-] & Hx). exists c. split; [done|]. by apply chr_eq_true.
Qed.

(** ** The sentence ending (C7) *)

(** C7. [sanitize_content] is a total function.  Its result has no leading or
    trailing whitespace; when it is not empty it ends in a period, an
    exclamation mark or a question mark; and it is the text left by the
    signature removal, right-stripped, with one period appended exactly when
    that text is not empty and does not already end in one of the three. *)
Theorem sanitize_content_trimmed_and_punctuated (content : str) :
  let body :=
    rstrip (inline_trim2 (inline_trim1 (joined_lines (redact_emails content)))) in
  let out := sanitize_content content in
  strip out = out
  /\ (out <> [] -> exists c, last out = Some c /\ In c (L ".!?"))
  /\ out = lstrip body
           ++ (if negb (length body =? 0) && negb (last_in (L ".!?") body)
               then L "." else []).
Proof.
  intros body out.
  assert (Hout : out = lstrip body
           ++ (if negb (length body =? 0) && negb (last_in (L ".!?") body)
               then L "." else [])).
  { subst out. unfold sanitize_content, remove_signature_lines, end_sentence.
    fold body. rewrite strip_strip. change (L ".") with ["."%char].
    destruct (negb (length body =? 0) && negb (last_in (L ".!?") body)) eqn:E.
    - apply andb_true_iff in E as [Hlen _].
      apply negb_true_iff, Nat.eqb_neq in Hlen.
      destruct (last body) as [c|] eqn:Hl;
        [|apply last_None in Hl; rewrite Hl in Hlen; done].
      pose proof (rstrip_last _ _ Hl) as Hc.
      unfold strip. rewrite rstrip_id.
      + by apply lstrip_app with c.
      + intros x. rewrite last_snoc. by intros [= <-].
    - rewrite app_nil_r. unfold strip, body. by rewrite rstrip_rstrip. }
  split; [subst out; unfold sanitize_content; apply strip_strip|].
  split; [|done]. intros Hne. rewrite Hout in Hne |- *.
  change (L ".") with ["."%char] in *.
  destruct (last body) as [c|] eqn:Hl.
  - pose proof (rstrip_last _ _ Hl) as Hc.
    destruct (negb (length body =? 0) && negb (last_in (L ".!?") body)) eqn:E.
    + exists "."%char. rewrite last_snoc. simpl. auto.
    + rewrite app_nil_r. exists c. split; [by apply lstrip_last|].
      apply andb_false_iff in E as [E|E].
      * apply negb_false_iff, Nat.eqb_eq in E. destruct body; done.
      * apply negb_false_iff, last_in_true in E as (x & Hx & Hin). congruence.
  - apply last_None in Hl. rewrite Hl in Hne. simpl in Hne. done.
Qed.

(** ** Titles (C4, C10) *)

Lemma slice_to_length (s : str) n : length (slice_to s n) <= length s.
Proof. unfold slice_to. destruct (0 <=? n)%Z; rewrite length_take; lia. Qed.

Lemma slice_to_nonneg (s : str) n : (0 <= n)%Z -> slice_to s n = take (Z.to_nat n) s.
Proof. intros H. unfold slice_to. by rewrite (proj2 (Z.leb_le 0 n) H). Qed.

(** C10. With the default [max_length] the title has at most 68 characters:
    the five of the prefix, at most sixty of the content and the three of
    the ellipsis. *)
Theorem generate_title_length_default (content : str) :
  length (generate_title content TITLE_MAX_LENGTH) <= 68.
Proof.
  unfold generate_title, TITLE_MAX_LENGTH.
  rewrite (slice_to_nonneg content 60) by lia.
  set (title_content := take (Z.to_nat 60) content).
  assert (Hlen : length title_content <= 60).
  { subst title_content. rewrite length_take. lia. }
  rewrite length_app. change (length TITLE_PREFIX) with 5.
  destruct (60 <? Z.of_nat (length content))%Z; [|lia].
  rewrite length_app. change (length (L "...")) with 3.
  destruct (int_gt_float _ _); [|lia].
  pose proof (slice_to_length title_content (rfind " " title_content)). lia.
Qed.

Lemma find_from_None c s : forall i,
  find_from c i s = None -> forall q, s !! q <> Some c.
Proof.
  induction s as [|x s IH]; intros i H q; [done|]. simpl in H.
  destruct (find_from c (Datatypes.S i) s) eqn:E; [done|].
  destruct (chr_eq c x) eqn:Hx; [done|].
  destruct q as [|q]; simpl.
  - intros [= ->]. by rewrite (proj2 (chr_eq_true c c)) in Hx.
  - by apply (IH _ E).
Qed.

Lemma find_from_Some c s : forall i j,
  find_from c i s = Some j ->
  exists p, j = i + p /\ s !! p = Some c /\ forall q, p < q -> s !! q <> Some c.
Proof.
  induction s as [|x s IH]; intros i j H; [done|]. simpl in H.
  destruct (find_from c (Datatypes.S i) s) as [j'|] eqn:E.
  - injection H as ->. destruct (IH _ _ E) as (p & -> & Hp & Hlast).
    exists (Datatypes.S p). split; [lia|]. split; [done|].
    intros [|q] Hq; [lia|]. simpl. apply Hlast. lia.
  - destruct (chr_eq c x) eqn:Hx; [|done]. injection H as <-.
    apply chr_eq_true in Hx as <-. exists 0. split; [lia|]. split; [done|].
    intros [|q] Hq; [lia|]. simpl. by apply (find_from_None _ _ _ E).
Qed.

Lemma rfind_last_space s p : rfind " " s = Z.of_nat p -> last_space_at p s.
Proof.
  unfold rfind. destruct (find_from " " 0 s) as [j|] eqn:E; [|lia].
  intros H. apply Nat2Z.inj in H as ->.
  destruct (find_from_Some _ _ _ _ E) as (q & -> & ? & ?). by split.
Qed.

Lemma last_space_rfind s p : last_space_at p s -> rfind " " s = Z.of_nat p.
Proof.
  intros [Hp Hlast]. unfold rfind. destruct (find_from " " 0 s) as [j|] eqn:E.
  - destruct (find_from_Some _ _ _ _ E) as (q & -> & Hq & Hlast').
    f_equal. simpl. destruct (Nat.lt_trichotomy p q) as [H|[H|H]]; [|done|].
    + destruct (Hlast _ H Hq).
    + destruct (Hlast' _ H Hp).
  - destruct (find_from_None _ _ _ E _ Hp).
Qed.

Lemma no_space_rfind s : no_space s -> rfind " " s = (-1)%Z.
Proof.
  intros H. unfold rfind. destruct (find_from " " 0 s) as [j|] eqn:E; [|done].
  destruct (find_from_Some _ _ _ _ E) as (q & _ & Hq & _). destruct (H _ Hq).
Qed.

Lemma binary_round_aux_not_negative m e l :
  not_negative (binary_round_aux 53 1024 false m e l).
Proof.
  unfold binary_round_aux. destruct (shr_fexp 53 1024 m e l) as [mrs e'].
  destruct (shr_fexp 53 1024 _ e' loc_Exact) as [mrs' e''].
  destruct (shr_m mrs'); simpl; [done| |done]. by destruct (_ <=? _)%Z.
Qed.

Lemma float_of_int_not_negative n : (0 <= n)%Z -> not_negative (float_of_int n).
Proof.
  intros H. destruct n as [|n|n]; [done| |lia].
  unfold float_of_int, binary_normalize, binary_round.
  destruct (shl_align _ _ _). apply binary_round_aux_not_negative.
Qed.

Lemma threshold_product_not_negative x :
  not_negative x -> not_negative (float_mul x TITLE_WORD_BOUNDARY_THRESHOLD).
Proof.
  destruct x as [[]|[]| |[] m e]; try done. intros _.
  apply binary_round_aux_not_negative.
Qed.

(** No index, not even the -1 of a failed [rfind], is below such a float. *)
Lemma int_gt_float_minus_one x : not_negative x -> int_gt_float (-1) x = false.
Proof. by destruct x as [[]|[]| |[] m e]. Qed.

(** C4, as the code has it. For content longer than [max_length] the title is
    the prefix, the first [max_length] characters backed off to the last
    space among them exactly when the position of that space is strictly
    greater than the binary64 product [max_length * 0.7], and the ellipsis.
    For the default [max_length] of 60 the product is 42, so the title
    breaks at a space from position 43 on and not at position 42. *)
Theorem generate_title_truncated (content : str) (max_length : Z) :
  (0 <= max_length < Z.of_nat (length content))%Z ->
  let cut := take (Z.to_nat max_length) content in
  let bound := float_mul (float_of_int max_length) TITLE_WORD_BOUNDARY_THRESHOLD in
  (forall p, last_space_at p cut ->
     generate_title content max_length
     = TITLE_PREFIX
       ++ (if int_gt_float (Z.of_nat p) bound then take p content else cut)
       ++ L "...")
  /\ (no_space cut ->
      generate_title content max_length = TITLE_PREFIX ++ cut ++ L "...")
  /\ (max_length = TITLE_MAX_LENGTH ->
      forall p, p < 60 -> int_gt_float (Z.of_nat p) bound = (42 <? p)).
Proof.
  intros [Hlo Hhi] cut bound.
  assert (Hgen : generate_title content max_length
                 = TITLE_PREFIX
                   ++ (if int_gt_float (rfind " " cut) bound
                       then slice_to cut (rfind " " cut) else cut) ++ L "...").
  { unfold generate_title. rewrite slice_to_nonneg by done. fold cut bound.
    by rewrite (proj2 (Z.ltb_lt _ _) Hhi). }
  split; [|split].
  - intros p Hp. rewrite Hgen, (last_space_rfind _ _ Hp).
    destruct (int_gt_float (Z.of_nat p) bound); [|reflexivity].
    rewrite slice_to_nonneg, Nat2Z.id by lia.
    destruct Hp as [Hp _]. apply lookup_lt_Some in Hp.
    subst cut. rewrite length_take in Hp. rewrite take_take.
    by replace (p `min` Z.to_nat max_length) with p by lia.
  - intros Hno. rewrite Hgen, (no_space_rfind _ Hno).
    rewrite int_gt_float_minus_one; [done|].
    by apply threshold_product_not_negative, float_of_int_not_negative.
  - intros -> p Hp. subst bound.
    do 60 (destruct p as [|p]; [vm_compute; reflexivity|]). lia.
Qed.

Lemma generate_title_truncated_witness :
  generate_title
    (L "Is there any way at all to have the assistant read a whole monorepo?")
    60
  = L "Q&A: Is there any way at all to have the assistant read a whole...".
Proof.
  destruct (generate_title_truncated
              (L "Is there any way at all to have the assistant read a whole monorepo?")
              60 ltac:(vm_compute; split; [discriminate|reflexivity]))
    as (H & _ & _).
  rewrite (H 58 ltac:(apply rfind_last_space; vm_compute; reflexivity)).
  vm_compute. reflexivity.
Defined.

(** C4, as the specification words it, fails on the code: with a space at position 42
    exactly, which is 60 * 0.7, the code keeps the hard cut at 60 characters
    where the specification backs off to the space. *)
Lemma generate_title_at_threshold_differs :
  generate_title
    (L "aaaaaaaaaaaaaaaaaaaaaaaaaaaaaaaaaaaaaaaaaa bbbbbbbbbbbbbbbbbbbbbbbbbbbbbb") 60
  = L "Q&A: aaaaaaaaaaaaaaaaaaaaaaaaaaaaaaaaaaaaaaaaaa bbbbbbbbbbbbbbbbb..."
  /\ AsSpecified.generate_title
    (L "aaaaaaaaaaaaaaaaaaaaaaaaaaaaaaaaaaaaaaaaaa bbbbbbbbbbbbbbbbbbbbbbbbbbbbbb") 60
  = L "Q&A: aaaaaaaaaaaaaaaaaaaaaaaaaaaaaaaaaaaaaaaaaa..."
  /\ generate_title
    (L "aaaaaaaaaaaaaaaaaaaaaaaaaaaaaaaaaaaaaaaaaa bbbbbbbbbbbbbbbbbbbbbbbbbbbbbb") 60
  <> AsSpecified.generate_title
    (L "aaaaaaaaaaaaaaaaaaaaaaaaaaaaaaaaaaaaaaaaaa bbbbbbbbbbbbbbbbbbbbbbbbbbbbbb") 60.
Proof.
  split; [vm_compute; reflexivity|]. split; [vm_compute; reflexivity|].
  vm_compute. discriminate.
Qed.

(** ** The selector (C6) *)

Ltac each_char c := destruct c as [[] [] [] [] [] [] [] []].

Lemma upper_char_letter c x :
  is_upper_az x = true -> upper_char c = [x] <-> lower_az c = lower_az x.
Proof.
  each_char x; intros Hx; try discriminate Hx; clear Hx;
    each_char c; vm_compute; split; intros H; first [reflexivity | discriminate H].
Qed.

Lemma upper_char_shape c : upper_char c = L "SS" \/ exists x, upper_char c = [x].
Proof.
  unfold upper_char. destruct (is_lower_az c); [eauto|].
  destruct (chr_eq "223" c); [eauto|]. destruct (_ && _); eauto.
Qed.

(** [str.upper] against a constant made of capital letters without a double
    S: the comparison is equality up to letter case. *)
Lemma upper_eq_constant t : forall s,
  Forall (fun x => is_upper_az x = true) t ->
  (forall pre post, t <> pre ++ L "SS" ++ post) ->
  upper s = t <-> same_ignoring_case s t.
Proof.
  unfold upper, same_ignoring_case.
  induction t as [|x t IH]; intros s Ht Hss.
  - destruct s as [|c s]; [done|]. split; [|done]. simpl.
    destruct (upper_char_shape c) as [->|[y ->]]; done.
  - destruct s as [|c s]; [done|]. simpl.
    apply Forall_cons in Ht as [Hx Ht].
    assert (Hss' : forall pre post, t <> pre ++ L "SS" ++ post).
    { intros pre post ->. by apply (Hss (x :: pre) post). }
    split.
    + destruct (upper_char_shape c) as [E|[y E]]; rewrite E.
      * intros H. destruct t as [|x' t]; [done|]. injection H as <- <- _.
        destruct (Hss [] t). reflexivity.
      * intros [= -> H]. apply (upper_char_letter c) in Hx.
        rewrite (proj1 Hx E). f_equal. by apply IH.
    + intros [= Hc H]. apply (upper_char_letter c) in Hx.
      rewrite (proj2 Hx Hc). simpl. f_equal. by apply IH.
Qed.

Lemma is_attendee_question_spec r : is_attendee_question r = true <-> attendee_question r.
Proof.
  unfold is_attendee_question, attendee_question.
  rewrite andb_true_iff, !bool_decide_eq_true.
  rewrite !upper_eq_constant; [done| | | |].
  - repeat constructor.
  - intros pre post H. vm_compute in H.
    do 8 (destruct pre as [|? pre]; [discriminate H|injection H as _ H]).
    by destruct pre.
  - repeat constructor.
  - intros pre post H. vm_compute in H.
    do 8 (destruct pre as [|? pre]; [discriminate H|injection H as _ H]).
    by destruct pre.
Qed.

Lemma filter_loop (rows : list row) : forall filtered,
  fold_left (fun filtered r =>
               if is_attendee_question r then filtered ++ [r] else filtered)
            rows filtered
  = filtered ++ filter attendee_question rows.
Proof.
  induction rows as [|r rows IH]; intros filtered; simpl.
  - by rewrite app_nil_r.
  - rewrite IH. destruct (is_attendee_question r) eqn:E.
    + apply is_attendee_question_spec in E.
      by rewrite filter_cons_True, <- app_assoc.
    + rewrite filter_cons_False; [done|].
      intros H. apply is_attendee_question_spec in H. congruence.
Qed.







(** The selector on rows of strings is the selector on the rows that the
    reader yields, restricted to them. *)
Lemma as_loaded_lookup (r : row) key :
  as_loaded r !! Some key = Loaded.Text <$> r !! key.
Proof. unfold as_loaded. rewrite (lookup_kmap (M2:=gmap (option str)) Some). by rewrite lookup_fmap. Qed.

Lemma as_loaded_get (r : row) key :
  Loaded.get (as_loaded r) key = Loaded.Text (get r key).
Proof.
  unfold Loaded.get, get. rewrite as_loaded_lookup. by destruct (r !! L key).
Qed.

Lemma as_loaded_is_attendee_question (r : row) :
  Loaded.is_attendee_question (as_loaded r) = Loaded.Ok (is_attendee_question r).
Proof.
  unfold Loaded.is_attendee_question, is_attendee_question.
  rewrite !as_loaded_get. cbn [Loaded.py_upper].
  by destruct (bool_decide (upper (get r "Source") = L "ATTENDEE")).
Qed.

Lemma as_loaded_filter_loop (rows : list row) : forall filtered,
  Loaded.filter_loop (as_loaded <$> rows) (as_loaded <$> filtered)
  = Loaded.Ok
      (as_loaded <$>
         fold_left (fun filtered r =>
                      if is_attendee_question r then filtered ++ [r] else filtered)
                   rows filtered).
Proof.
  induction rows as [|r rows IH]; intros filtered; [done|].
  rewrite fmap_cons. cbn [Loaded.filter_loop fold_left].
  rewrite as_loaded_is_attendee_question.
  destruct (is_attendee_question r); [|apply IH].
  rewrite <- IH. by rewrite fmap_app.
Qed.

Lemma filter_questions_as_loaded (rows : list row) :
  Loaded.filter_questions (as_loaded <$> rows)
  = Loaded.Ok (as_loaded <$> filter_questions rows).
Proof. apply (as_loaded_filter_loop rows []). Qed.

(** ** Signature lines (C2) *)

Lemma lowercase_closing kw : In kw closing_words -> map lower_az (L kw) = L kw.
Proof. simpl. intros H. by repeat (destruct H as [<-|H]; [reflexivity|]). Qed.

Lemma lowercase_header kw : In kw header_words -> map lower_az (L kw) = L kw.
Proof. simpl. intros H. by repeat (destruct H as [<-|H]; [reflexivity|]). Qed.

Lemma matches_closing_line kw w rest :
  matches (closing_line kw) [] w rest <->
  exists ws k c, w = ws ++ k ++ [c] /\ Forall (fun c => isspace c = true) ws
                 /\ map lower_az k = map lower_az (L kw)
                 /\ space_or_comma c = true.
Proof.
  unfold closing_line. cbn [cats fold_right matches Star]. split.
  - intros (w1 & w2 & -> & [-> _] & ws & w3 & -> & [_ Hws] & k & w4 & -> & Hk
            & w5 & w6 & -> & (c & -> & Hc) & ->).
    apply matches_lit in Hk. exists ws, k, c. by rewrite app_nil_r.
  - intros (ws & k & c & -> & Hws & Hk & Hc).
    exists [], (ws ++ k ++ [c]). split; [done|]. split; [done|].
    exists ws, (k ++ [c]). split; [done|]. split; [split; [lia|done]|].
    exists k, [c]. split; [done|]. split; [by apply matches_lit|].
    exists [c], []. split; [done|]. split; [eauto|done].
Qed.

Lemma matches_header_line kw w rest :
  matches (header_line kw) [] w rest <->
  exists ws k ws', w = ws ++ k ++ ws' ++ [":"%char]
                   /\ Forall (fun c => isspace c = true) ws
                   /\ map lower_az k = map lower_az (L kw)
                   /\ Forall (fun c => isspace c = true) ws'.
Proof.
  unfold header_line. cbn [cats fold_right matches Star]. split.
  - intros (w1 & w2 & -> & [-> _] & ws & w3 & -> & [_ Hws] & k & w4 & -> & Hk
            & ws' & w5 & -> & [_ Hws'] & w6 & w7 & -> & (c & -> & Hc) & ->).
    apply matches_lit in Hk. apply chr_eq_true in Hc as <-.
    exists ws, k, ws'. by rewrite app_nil_r.
  - intros (ws & k & ws' & -> & Hws & Hk & Hws').
    exists [], (ws ++ k ++ ws' ++ [":"%char]). split; [done|]. split; [done|].
    exists ws, (k ++ ws' ++ [":"%char]). split; [done|]. split; [split; [lia|done]|].
    exists k, (ws' ++ [":"%char]). split; [done|]. split; [by apply matches_lit|].
    exists ws', [":"%char]. split; [done|]. split; [split; [lia|done]|].
    exists [":"%char], []. split; [done|]. split; [|done].
    exists ":"%char. split; [done|]. by apply chr_eq_true.
Qed.

Lemma signature_patterns_by_word :
  signature_patterns = map closing_line closing_words ++ map header_line header_words.
Proof. reflexivity. Qed.

(** The inner loop accepts exactly the cue lines. *)
Lemma is_signature_spec line : is_signature line = true <-> line_cue line.
Proof.
  unfold is_signature. rewrite existsb_exists, signature_patterns_by_word. split.
  - intros (r & Hr & Hm). apply re_match_true in Hm as (w & rest & -> & M).
    apply in_app_iff in Hr as [Hr|Hr]; apply in_map_iff in Hr as (kw & <- & Hkw).
    + apply matches_closing_line in M as (ws & k & c & -> & Hws & Hk & Hc).
      rewrite (lowercase_closing _ Hkw) in Hk.
      exists ws, k, (c :: rest). rewrite <- !app_assoc. split; [done|].
      split; [done|]. left. split; [by exists kw|eauto].
    + apply matches_header_line in M as (ws & k & ws' & -> & Hws & Hk & Hws').
      rewrite (lowercase_header _ Hkw) in Hk.
      exists ws, k, (ws' ++ ":"%char :: rest). rewrite <- !app_assoc. split; [done|].
      split; [done|]. right. split; [by exists kw|eauto].
  - intros (ws & k & rest & -> & Hws & [[(kw & Hkw & Hk) (c & rest' & -> & Hc)]
                                       |[(kw & Hkw & Hk) (ws' & rest' & -> & Hws')]]).
    + exists (closing_line kw). split; [apply in_app_iff; left; by apply in_map|].
      apply re_match_true. exists (ws ++ k ++ [c]), rest'.
      split; [by rewrite <- !app_assoc|]. apply matches_closing_line.
      exists ws, k, c. by rewrite (lowercase_closing _ Hkw).
    + exists (header_line kw). split; [apply in_app_iff; right; by apply in_map|].
      apply re_match_true. exists (ws ++ k ++ ws' ++ [":"%char]), rest'.
      split; [by rewrite <- !app_assoc|]. apply matches_header_line.
      exists ws, k, ws'. by rewrite (lowercase_header _ Hkw).
Qed.

Lemma not_line_cue line : is_signature line = false -> ~ line_cue line.
Proof. intros H Hc. apply is_signature_spec in Hc. congruence. Qed.

(** The loop over the lines keeps the lines before the first cue. *)
Lemma scan_lines_found lines kept :
  fold_left scan_line lines (true, kept) = (true, kept).
Proof. by induction lines. Qed.

Lemma scan_lines lines : forall kept,
  snd (fold_left scan_line lines (false, kept))
  = kept ++ lines_before is_signature lines.
Proof.
  induction lines as [|l ls IH]; intros kept; simpl.
  - by rewrite app_nil_r.
  - destruct (is_signature l).
    + by rewrite scan_lines_found, app_nil_r.
    + by rewrite IH, <- app_assoc.
Qed.

Lemma cleaned_lines_before text :
  cleaned_lines text = lines_before is_signature (split "010" text).
Proof. unfold cleaned_lines. by rewrite scan_lines. Qed.

Lemma lines_before_first_cue pre l post :
  Forall (fun l => ~ line_cue l) pre -> line_cue l ->
  lines_before is_signature (pre ++ l :: post) = pre.
Proof.
  intros Hpre Hl. induction Hpre as [|x pre Hx Hpre IH]; simpl.
  - by rewrite (proj2 (is_signature_spec l) Hl).
  - destruct (is_signature x) eqn:E; [|by rewrite IH].
    by apply is_signature_spec in E.
Qed.

Lemma lines_before_no_cue lines :
  Forall (fun l => ~ line_cue l) lines -> lines_before is_signature lines = lines.
Proof.
  induction 1 as [|x ls Hx Hls IH]; simpl; [done|].
  destruct (is_signature x) eqn:E; [|by rewrite IH].
  by apply is_signature_spec in E.
Qed.

Lemma split_not_nil s : split "010" s <> [].
Proof. destruct s as [|c s]; simpl; [done|]. destruct (chr_eq _ _); [done|]. by destruct (split _ _). Qed.

Lemma join_split s : join newline (split "010" s) = s.
Proof.
  induction s as [|c s IH]; [done|]. simpl.
  destruct (chr_eq "010" c) eqn:E.
  - apply chr_eq_true in E as <-.
    pose proof (split_not_nil s). destruct (split "010" s) as [|l ls]; [done|].
    change (join newline ([] :: l :: ls)) with (newline ++ join newline (l :: ls)).
    by rewrite IH.
  - pose proof (split_not_nil s). destruct (split "010" s) as [|l ls]; [done|].
    rewrite <- IH. by destruct ls.
Qed.

Lemma last_map_lower (w : str) : last (map lower_az w) = option_map lower_az (last w).
Proof.
  induction w as [|c w IH]; [done|]. destruct w as [|c' w]; [done|].
  change (last (map lower_az (c :: c' :: w))) with (last (map lower_az (c' :: w))).
  by rewrite IH.
Qed.

(** A line that is a closing word alone ends in the last letter of one. *)
Lemma bare_closing_last line :
  bare_closing line -> exists c, last line = Some c /\ In (lower_az c) (L "suty").
Proof.
  intros (ws & w & -> & _ & kw & Hkw & Hw).
  apply (f_equal last) in Hw. rewrite last_map_lower in Hw.
  assert (Hlast : exists x, last (L kw) = Some x /\ In x (L "suty")).
  { simpl in Hkw.
    repeat (destruct Hkw as [<-|Hkw]; [eexists; split; [reflexivity|simpl; tauto]|]).
    done. }
  destruct Hlast as (x & Hx & Hin). rewrite Hx in Hw.
  destruct (last w) as [c|] eqn:Hc; [|done]. injection Hw as <-.
  exists c. split; [|done]. destruct w as [|c0 w]; [done|].
  rewrite last_app, Hc. done.
Qed.

(** C2, as the code has it. The lines kept are the lines before the first
    one that starts, after optional whitespace and in any letter case, with
    a closing word (thanks, thank you, regards, best, cheers, sincerely)
    followed by a whitespace character or a comma, or with a header word
    (from, sent, to, cc, bcc, subject), optional whitespace and a colon.
    They are kept as they are, blank lines included, joined with newlines
    and stripped; without such a line the whole text is kept.  A line that
    is a closing word with nothing after it is left out of the statement. *)
Theorem cleaned_lines_first_cue (text : str) :
  Forall (fun l => ~ bare_closing l) (split "010" text) ->
  (forall pre l post,
     split "010" text = pre ++ l :: post ->
     Forall (fun l => ~ line_cue l) pre -> line_cue l ->
     cleaned_lines text = pre /\ joined_lines text = strip (join newline pre))
  /\ (Forall (fun l => ~ line_cue l) (split "010" text) ->
      cleaned_lines text = split "010" text /\ joined_lines text = strip text).
Proof.
  intros _. split.
  - intros pre l post E Hpre Hl.
    assert (Hc : cleaned_lines text = pre).
    { rewrite cleaned_lines_before, E. by apply lines_before_first_cue. }
    split; [done|]. unfold joined_lines. by rewrite Hc.
  - intros Hno.
    assert (Hc : cleaned_lines text = split "010" text).
    { rewrite cleaned_lines_before. by apply lines_before_no_cue. }
    split; [done|]. unfold joined_lines. by rewrite Hc, join_split.
Qed.

Lemma cleaned_lines_first_cue_witness :
  cleaned_lines (L "How do I turn it on?" ++ newline ++ newline
                 ++ L "It is greyed out." ++ newline
                 ++ L "  Thanks, Bob" ++ newline ++ L "Sent from my phone")
  = [L "How do I turn it on?"; []; L "It is greyed out."].
Proof.
  refine (proj1 (proj1 (cleaned_lines_first_cue _ _)
                   [L "How do I turn it on?"; []; L "It is greyed out."]
                   (L "  Thanks, Bob") [L "Sent from my phone"] _ _ _)).
  - vm_compute split. repeat constructor; intros H;
      apply bare_closing_last in H as (c & Hc & Hin); vm_compute in Hc;
      try discriminate Hc; injection Hc as <-; vm_compute in Hin;
      repeat (destruct Hin as [Hin|Hin]; [discriminate Hin|]); done.
  - vm_compute. reflexivity.
  - repeat constructor; apply not_line_cue; vm_compute; reflexivity.
  - apply is_signature_spec. vm_compute. reflexivity.
Defined.

(** C2, as the specification words it, fails on the code: a line that begins with a
    closing word not followed by whitespace or a comma is no cue for the
    code, and the specification, for which the separator is optional, removes
    it. *)
Lemma cleaned_lines_keyword_prefix_differs :
  cleaned_lines (L "Best-practice for prompts?" ++ newline ++ L "Second line")
  = [L "Best-practice for prompts?"; L "Second line"]
  /\ AsSpecified.cleaned_lines
       (L "Best-practice for prompts?" ++ newline ++ L "Second line") = []
  /\ cleaned_lines (L "Best-practice for prompts?" ++ newline ++ L "Second line")
     <> AsSpecified.cleaned_lines
          (L "Best-practice for prompts?" ++ newline ++ L "Second line").
Proof.
  split; [vm_compute; reflexivity|]. split; [vm_compute; reflexivity|].
  vm_compute. discriminate.
Qed.

(** ** Inline signatures (C3) *)

Lemma at_end_final tail : at_end tail = true <-> final tail.
Proof.
  split; [apply at_end_cases|]. by intros [->| ->].
Qed.

Lemma length_pos_not_nil (w : str) : 1 <= length w <-> w <> [].
Proof. destruct w; simpl; split; try done; lia. Qed.

Lemma matches_inline_pattern lead b u tail :
  matches (inline_pattern lead) b u tail <->
  exists p ws kw sep rest,
    u = p ++ ws ++ kw ++ sep ++ rest
    /\ matches lead b p (ws ++ kw ++ sep ++ rest ++ tail)
    /\ ws <> [] /\ Forall (fun c => isspace c = true) ws
    /\ keyword inline_keywords kw
    /\ sep <> [] /\ Forall (fun c => space_or_comma c = true) sep
    /\ Forall (fun c => not_newline c = true) rest
    /\ final tail.
Proof.
  unfold inline_pattern. cbn [cats fold_right matches Star Plus]. split.
  - intros (p & r1 & -> & Hp & ws & r2 & -> & [Hws1 Hws] & kw & r3 & -> & Hkw
            & sep & r4 & -> & [Hsep1 Hsep] & rest & r5 & -> & [_ Hrest]
            & e & r6 & -> & [-> He] & ->).
    apply matches_keyword_group in Hkw. apply length_pos_not_nil in Hws1, Hsep1.
    apply at_end_final in He. rewrite !app_nil_r in *.
    rewrite <- !app_assoc in Hp.
    exists p, ws, kw, sep, rest. repeat split; auto.
  - intros (p & ws & kw & sep & rest & -> & Hp & Hws1 & Hws & Hkw & Hsep1 & Hsep
            & Hrest & He).
    apply length_pos_not_nil in Hws1, Hsep1. apply at_end_final in He.
    exists p, (ws ++ kw ++ sep ++ rest). split; [done|].
    split; [by rewrite <- !app_assoc|].
    exists ws, (kw ++ sep ++ rest). split; [done|]. split; [done|].
    exists kw, (sep ++ rest). split; [done|].
    split; [by apply matches_keyword_group|].
    exists sep, rest. split; [done|]. split; [done|].
    exists rest, []. split; [by rewrite app_nil_r|]. split; [split; [lia|done]|].
    exists [], []. split; [done|]. split; [|done]. split; [done|].
    by rewrite app_nil_l.
Qed.

Lemma inline_signature_pattern_shape :
  inline_signature_pattern = inline_pattern (Opt (Char sentence_end)).
Proof. reflexivity. Qed.

Lemma inline_signature_pattern2_shape :
  inline_signature_pattern2 = inline_pattern (Char (chr_eq ",")).
Proof. reflexivity. Qed.

Lemma matches_optional_sentence_end b p a :
  matches (Opt (Char sentence_end)) b p a <-> optional_sentence_end p.
Proof. unfold optional_sentence_end. simpl. tauto. Qed.

Lemma matches_one_comma b p a :
  matches (Char (chr_eq ",")) b p a <-> one_comma p.
Proof.
  unfold one_comma. simpl. split.
  - intros (c & -> & Hc). apply chr_eq_true in Hc. by subst.
  - intros ->. exists ","%char. split; [done|]. by apply chr_eq_true.
Qed.

Lemma matches_inline_signature_pattern b u tail :
  matches inline_signature_pattern b u tail
  <-> inline_cue optional_sentence_end u /\ final tail.
Proof.
  rewrite inline_signature_pattern_shape, matches_inline_pattern.
  unfold inline_cue. setoid_rewrite matches_optional_sentence_end. split.
  - intros (p & ws & kw & sep & rest & ? & ? & ? & ? & ? & ? & ? & ? & ?).
    split; [|done]. exists p, ws, kw, sep, rest. tauto.
  - intros [(p & ws & kw & sep & rest & ? & ? & ? & ? & ? & ? & ? & ?) ?].
    exists p, ws, kw, sep, rest. tauto.
Qed.

Lemma matches_inline_signature_pattern2 b u tail :
  matches inline_signature_pattern2 b u tail
  <-> inline_cue one_comma u /\ final tail.
Proof.
  rewrite inline_signature_pattern2_shape, matches_inline_pattern.
  unfold inline_cue. setoid_rewrite matches_one_comma. split.
  - intros (p & ws & kw & sep & rest & ? & ? & ? & ? & ? & ? & ? & ? & ?).
    split; [|done]. exists p, ws, kw, sep, rest. tauto.
  - intros [(p & ws & kw & sep & rest & ? & ? & ? & ? & ? & ? & ? & ?) ?].
    exists p, ws, kw, sep, rest. tauto.
Qed.

Lemma inline_cue_length lead u : inline_cue lead u -> 2 <= length u.
Proof.
  intros (p & ws & kw & sep & rest & -> & _ & Hws & _ & _ & Hsep & _).
  apply length_pos_not_nil in Hws, Hsep. rewrite !length_app. lia.
Qed.

Lemma inline_pattern_never_empty lead : never_empty (inline_pattern lead).
Proof.
  intros b w a M -> . apply matches_inline_pattern in M
    as (p & ws & kw & sep & rest & E & _ & Hws & _).
  destruct p; [|done]. by destruct ws.
Qed.

Lemma inline_pattern_to_the_end lead : to_the_end (inline_pattern lead).
Proof.
  intros b w a M. apply matches_inline_pattern in M
    as (p & ws & kw & sep & rest & -> & _ & Hws & _ & _ & Hsep & _ & _ & He).
  split; [by apply at_end_final|].
  apply length_pos_not_nil in Hws, Hsep. rewrite !length_app. lia.
Qed.

Lemma re_sub_to_the_end r s :
  never_empty r -> to_the_end r ->
  (free_of r s /\ re_sub r [] s = s)
  \/ (exists pre w rest,
        occurs r s pre w rest
        /\ (forall pre' w' post', occurs r s pre' w' post' -> length pre <= length pre')
        /\ re_sub r [] s = pre ++ rest).
Proof.
  intros Hne Hend. unfold re_sub, free_of, occurs.
  destruct (sub_scan_to_the_end r Hne Hend s [])
    as [[Hno Hs]|(pre & w & rest & E & M & Hleft & Hs)].
  - left. split; [|done]. intros pre w post [E M].
    apply (Hno pre w post E). by rewrite app_nil_r.
  - right. exists pre, w, rest. rewrite app_nil_r in M. repeat split; auto.
    intros pre' w' post' [E' M']. apply (Hleft pre' w' post' E').
    by rewrite app_nil_r.
Qed.



(** An inline cue starts with the mark of its lead-in, or with whitespace. *)
Lemma inline_cue_head u :
  inline_cue optional_sentence_end u ->
  exists c, head u = Some c /\ (sentence_end c = true \/ isspace c = true).
Proof.
  intros (p & ws & kw & sep & rest & -> & [->|(c & -> & Hc)] & Hws & Hsp & _).
  - destruct ws as [|c ws]; [done|]. apply Forall_cons in Hsp as [Hc _]. eauto.
  - eauto.
Qed.

Lemma inline_cue_comma_head u : inline_cue one_comma u -> head u = Some ","%char.
Proof. by intros (p & ws & kw & sep & rest & -> & -> & _). Qed.



(** ** Addresses (C9) *)

Lemma at_boundary_heads b a :
  at_boundary b a = xorb (wordy (head b)) (wordy (head a)).
Proof. reflexivity. Qed.

Lemma head_rev_app (w b : str) : w <> [] -> head (rev w ++ b) = last w.
Proof.
  intros Hw. rewrite head_app, head_rev.
  destruct (last w) eqn:E; [done|]. by apply last_None in E.
Qed.

Lemma head_app_nonempty (w a : str) : w <> [] -> head (w ++ a) = head w.
Proof. by destruct w. Qed.

Lemma rev_address (l d t b : str) (x y : ascii) :
  rev (l ++ x :: d ++ y :: t) ++ b = rev t ++ y :: rev d ++ x :: rev l ++ b.
Proof.
  rewrite rev_app_distr. simpl. rewrite rev_app_distr. simpl.
  by rewrite <- !app_assoc.
Qed.

Lemma matches_email_pattern b w a :
  matches email_pattern b w a <->
  email_shape w /\ at_boundary b (w ++ a) = true
  /\ at_boundary (rev w ++ b) a = true.
Proof.
  unfold email_pattern, email_shape. cbn [cats fold_right matches Plus]. split.
  - intros (w1 & r1 & -> & [-> Hb1] & l & r2 & -> & [Hl1 Hl] & x & r3 & -> & (c & -> & Hc)
            & d & r4 & -> & [Hd1 Hd] & y & r5 & -> & (c' & -> & Hc')
            & t & r6 & -> & [Ht2 Ht] & w7 & r7 & -> & [-> Hb2] & ->).
    apply chr_eq_true in Hc as <-. apply chr_eq_true in Hc' as <-.
    apply length_pos_not_nil in Hl1, Hd1. rewrite !app_nil_r, !app_nil_l in *.
    simpl app in *.
    split; [exists l, d, t; repeat split; auto|]. split; [done|].
    by rewrite rev_address.
  - intros [(l & d & t & -> & Hl1 & Hl & Hd1 & Hd & Ht2 & Ht) [Hb1 Hb2]].
    apply length_pos_not_nil in Hl1, Hd1. rewrite rev_address in Hb2.
    exists [], (l ++ "@"%char :: d ++ "."%char :: t). split; [done|].
    split; [done|].
    exists l, ("@"%char :: d ++ "."%char :: t). split; [done|]. split; [done|].
    exists ["@"%char], (d ++ "."%char :: t). split; [done|].
    split; [exists "@"%char; split; [done|by apply chr_eq_true]|].
    exists d, ("."%char :: t). split; [done|]. split; [done|].
    exists ["."%char], t. split; [done|].
    split; [exists "."%char; split; [done|by apply chr_eq_true]|].
    exists t, []. split; [by rewrite app_nil_r|]. split; [done|].
    exists [], []. split; [done|]. split; [|done]. split; [done|].
    cbn [rev app]. exact Hb2.
Qed.

Lemma email_shape_not_nil w : email_shape w -> w <> [].
Proof. intros (l & d & t & -> & Hl & _). by destruct l. Qed.

Lemma email_shape_chars w :
  email_shape w -> Forall (fun c => email_char c = true) w.
Proof.
  intros (l & d & t & -> & _ & Hl & _ & Hd & _ & Ht). unfold email_char.
  apply Forall_app. split; [|apply Forall_cons; split; [done|]].
  - eapply Forall_impl; [exact Hl|]. by intros c ->.
  - apply Forall_app. split; [|apply Forall_cons; split; [done|]].
    + eapply Forall_impl; [exact Hd|]. intros c ->. by rewrite orb_true_r.
    + eapply Forall_impl; [exact Ht|]. intros c ->. by rewrite !orb_true_r.
Qed.

Lemma email_shape_at w : email_shape w -> In "@"%char w.
Proof. intros (l & d & t & -> & _). apply in_app_iff. right. by left. Qed.

Lemma email_shape_last w :
  email_shape w -> exists c, last w = Some c /\ tld_class c = true.
Proof.
  intros (l & d & t & -> & _ & _ & _ & _ & Ht2 & Ht).
  destruct t as [|c t _] using rev_ind; [simpl in Ht2; lia|].
  apply Forall_app in Ht as [_ Ht]. apply Forall_cons in Ht as [Hc _].
  exists c. split; [|done].
  change (l ++ "@"%char :: d ++ "."%char :: t ++ [c])
    with (l ++ ("@"%char :: d) ++ ("."%char :: t) ++ [c]).
  by rewrite !app_assoc, last_snoc.
Qed.

Lemma email_pattern_never_empty : never_empty email_pattern.
Proof.
  intros b w a M. apply matches_email_pattern in M as [Hs _].
  by apply email_shape_not_nil.
Qed.

(** A match depends on the text around it only through the two neighbours
    of its ends being word characters or not. *)
Lemma email_transfer b w a b' a' :
  matches email_pattern b w a ->
  wordy (head b') = wordy (head b) -> wordy (head a') = wordy (head a) ->
  matches email_pattern b' w a'.
Proof.
  intros M Hb Ha. apply matches_email_pattern in M as (Hs & H1 & H2).
  pose proof (email_shape_not_nil _ Hs) as Hw.
  apply matches_email_pattern. split; [done|].
  rewrite !at_boundary_heads in *.
  rewrite !head_app_nonempty, ?head_rev_app in * by done.
  by rewrite Hb, Ha.
Qed.

Lemma email_start_boundary b w a :
  matches email_pattern b w a -> at_boundary b (w ++ a) = true.
Proof. intros M. by apply matches_email_pattern in M as (_ & ? & _). Qed.

Lemma email_end_boundary b w a :
  matches email_pattern b w a -> at_boundary (rev w ++ b) a = true.
Proof. intros M. by apply matches_email_pattern in M as (_ & _ & ?). Qed.

(** *** The output of the redaction holds no address *)

Lemma prefix_stop (P : ascii -> Prop) w : forall u x v post,
  w ++ post = u ++ x :: v -> Forall P w -> ~ P x -> exists u2, u = w ++ u2.
Proof.
  induction w as [|c w IH]; intros u x v post E Hw Hx; [by exists u|].
  apply Forall_cons in Hw as [Hc Hw]. destruct u as [|c' u].
  - injection E as -> _. done.
  - injection E as <- E. destruct (IH _ _ _ _ E Hw Hx) as [u2 ->]. by exists u2.
Qed.

(** An address in the output cannot share characters with a marker. *)
Lemma marker_apart pre w post out :
  pre ++ w ++ post = redacted_marker ++ out -> email_shape w ->
  exists pre', pre = redacted_marker ++ pre'.
Proof.
  intros E Hs. apply app_eq_inv in E as [(k & -> & _)|(k & Hk & E)]; [by exists k|].
  destruct k as [|y k _] using rev_ind.
  - exists []. by rewrite app_nil_r in Hk |- *.
  - exfalso. change redacted_marker with (L "[redacted-email" ++ ["]"%char]) in Hk.
    rewrite app_assoc in Hk. apply app_inj_tail in Hk as [Hbody <-].
    rewrite <- app_assoc in E. simpl in E.
    destruct (prefix_stop (fun c => email_char c = true) w k "]"%char out post E)
      as [u2 ->]; [by apply email_shape_chars|done|].
    assert (Hin : In "@"%char (L "[redacted-email")).
    { rewrite Hbody. apply in_app_iff. right. apply in_app_iff. left.
      by apply email_shape_at. }
    simpl in Hin. by repeat (destruct Hin as [Hin|Hin]; [discriminate Hin|]).
Qed.

(** Characters of the output that can belong to an address were copied from
    the input. *)
Lemma scan_copied w : forall b a post,
  Forall (fun c => email_char c = true) w ->
  sub_scan email_pattern redacted_marker 0 b a = w ++ post ->
  exists a_rest,
    a = w ++ a_rest
    /\ post = sub_scan email_pattern redacted_marker 0 (rev w ++ b) a_rest.
Proof.
  induction w as [|c w IH]; intros b a post Hw E; [by exists a|].
  apply Forall_cons in Hw as [Hc Hw].
  destruct (sub_scan_cases email_pattern redacted_marker b a email_pattern_never_empty)
    as [[_ Ho]|[(c' & a' & -> & _ & Ho)|(m & rest & _ & _ & _ & Ho)]];
    rewrite Ho in E.
  - done.
  - injection E as -> E. destruct (IH _ _ _ Hw E) as (a_rest & -> & ->).
    exists a_rest. by rewrite rev_cons_app.
  - injection E as <- _. done.
Qed.

(** The output starts as the input does, unless a match starts there. *)
Lemma scan_head b a :
  head (sub_scan email_pattern redacted_marker 0 b a) = head a
  \/ at_boundary b a = true.
Proof.
  destruct (sub_scan_cases email_pattern redacted_marker b a email_pattern_never_empty)
    as [[-> ->]|[(c' & a' & -> & _ & ->)|(m & rest & -> & _ & M & _)]]; [by left..|].
  right. by apply email_start_boundary in M.
Qed.

Lemma scan_free n : forall a, length a < n -> forall b ob,
  (at_boundary ob a = true -> at_boundary b a = true) ->
  forall pre w post,
    sub_scan email_pattern redacted_marker 0 b a = pre ++ w ++ post ->
    ~ matches email_pattern (rev pre ++ ob) w post.
Proof.
  induction n as [|n IH]; intros a Hlen b ob Hctx pre w post E M; [lia|].
  pose proof E as E0.
  destruct (sub_scan_cases email_pattern redacted_marker b a email_pattern_never_empty)
    as [[_ Ho]|[(c & a' & -> & Hnone & Ho)|(m & rest & -> & Hm & Mm & Ho)]];
    rewrite Ho in E.
  - (* the end of the text *)
    destruct pre; [|done]. destruct w; [|done].
    by destruct (email_pattern_never_empty _ _ _ M).
  - (* a copied character *)
    simpl in Hlen. destruct pre as [|c' pre].
    + simpl in M, E0. apply matches_email_pattern in M as (Hs & H1 & H2).
      pose proof (email_shape_not_nil _ Hs) as Hw.
      destruct (scan_copied w b (c :: a') post (email_shape_chars _ Hs) E0)
        as (a_rest & Ea & Hpost).
      apply (match_here_none email_pattern b w a_rest); [by rewrite <- Ea|].
      apply matches_email_pattern. split; [done|]. split.
      * rewrite <- Ea. apply Hctx. rewrite Ea.
        rewrite at_boundary_heads in H1 |- *.
        by rewrite head_app_nonempty in H1 |- * by done.
      * destruct (scan_head (rev w ++ b) a_rest) as [Hh|Hh]; [|done].
        rewrite <- Hpost in Hh. rewrite at_boundary_heads in H2 |- *.
        rewrite head_rev_app in H2 |- * by done. by rewrite <- Hh.
    + injection E as <- E. rewrite rev_cons_app in M.
      apply (IH a' ltac:(lia) (c :: b) (c :: ob) ltac:(done) pre w post E M).
  - (* a marker *)
    apply matches_email_pattern in M as HM. destruct HM as (Hs & _).
    symmetry in E. destruct (marker_apart _ _ _ _ E Hs) as [pre' ->].
    rewrite <- app_assoc in E. apply app_inv_head in E.
    rewrite rev_app_distr, <- app_assoc in M.
    refine (IH rest _ (rev m ++ b) (rev redacted_marker ++ ob) _ pre' w post _ M).
    + rewrite length_app in Hlen. destruct m; [done|simpl in Hlen; lia].
    + intros _. by apply email_end_boundary in Mm.
    + by symmetry.
Qed.

Lemma redact_emails_free s : free_of email_pattern (redact_emails s).
Proof.
  intros pre w post [E M].
  apply (scan_free (Datatypes.S (length s)) s ltac:(lia) [] [] ltac:(done)
           pre w post E).
  by rewrite app_nil_r.
Qed.

(** *** Cutting the text leaves it without address *)

Lemma isspace_not_word c : isspace c = true -> isword c = false.
Proof. each_char c; vm_compute; intros H; first [reflexivity|discriminate H]. Qed.

Lemma sentence_end_not_word c : sentence_end c = true -> isword c = false.
Proof. each_char c; vm_compute; intros H; first [reflexivity|discriminate H]. Qed.

Lemma spaces_last_not_word ws :
  Forall (fun c => isspace c = true) ws -> wordy (last ws) = false.
Proof.
  intros H. destruct (last ws) as [c|] eqn:E; [|done]. simpl.
  apply isspace_not_word. apply last_Some in E as [l ->].
  apply Forall_app in H as [_ H]. by apply Forall_cons in H as [? _].
Qed.

Lemma spaces_head_not_word ws :
  Forall (fun c => isspace c = true) ws -> wordy (head ws) = false.
Proof.
  intros H. destruct ws as [|c ws]; [done|]. simpl.
  apply isspace_not_word. by apply Forall_cons in H as [? _].
Qed.

Lemma free_of_nil r : never_empty r -> free_of r [].
Proof.
  intros Hne pre w post [E M]. apply Hne in M.
  destruct pre; [|done]. by destruct w.
Qed.

(** A part of a text without address, cut where the neighbours are not word
    characters, is without address. *)
Lemma free_of_infix pre u post :
  free_of email_pattern (pre ++ u ++ post) ->
  wordy (last pre) = false -> wordy (head post) = false ->
  free_of email_pattern u.
Proof.
  intros Hfree Hpre Hpost p w q [-> M].
  apply (Hfree (pre ++ p) w (q ++ post)). split; [by rewrite <- !app_assoc|].
  apply (email_transfer _ _ _ _ _ M).
  - rewrite !head_rev, last_app. destruct (last p) eqn:E; [done|]. by rewrite Hpre.
  - rewrite head_app. destruct (head q) eqn:E; [done|]. by rewrite Hpost.
Qed.

Lemma free_of_prefix u post :
  free_of email_pattern (u ++ post) -> wordy (head post) = false ->
  free_of email_pattern u.
Proof. intros H Hp. by apply (free_of_infix [] u post). Qed.

(** Putting a character after it that is neither a word character nor one of
    a last label keeps a text without address. *)
Lemma free_of_snoc u x :
  free_of email_pattern u -> isword x = false -> tld_class x = false ->
  free_of email_pattern (u ++ [x]).
Proof.
  intros Hfree Hx Ht p w q [E M].
  destruct q as [|y q _] using rev_ind.
  - rewrite app_nil_r in E. apply matches_email_pattern in M as (Hs & _).
    destruct (email_shape_last _ Hs) as (c & Hc & Hc').
    apply last_Some in Hc as [w' ->]. rewrite app_assoc in E.
    apply app_inj_tail in E as [_ ->]. congruence.
  - rewrite !app_assoc in E. apply app_inj_tail in E as [E <-].
    apply (Hfree p w q). split; [by rewrite <- app_assoc in E|].
    apply (email_transfer _ _ _ _ _ M); [done|].
    rewrite head_app. destruct (head q) eqn:Hq; [done|].
    simpl. by rewrite Hx.
Qed.

Lemma strip_split s :
  exists pre post,
    s = pre ++ strip s ++ post
    /\ Forall (fun c => isspace c = true) pre
    /\ Forall (fun c => isspace c = true) post.
Proof.
  destruct (rstrip_split s) as (post & E1 & Hpost).
  destruct (lstrip_split (rstrip s)) as (pre & E2 & Hpre).
  exists pre, post. split; [|done]. unfold strip.
  by rewrite app_assoc, <- E2.
Qed.

Lemma free_of_strip s : free_of email_pattern s -> free_of email_pattern (strip s).
Proof.
  intros H. destruct (strip_split s) as (pre & post & E & Hpre & Hpost).
  rewrite E in H. apply (free_of_infix pre _ post H).
  - by apply spaces_last_not_word.
  - by apply spaces_head_not_word.
Qed.

Lemma free_of_rstrip s : free_of email_pattern s -> free_of email_pattern (rstrip s).
Proof.
  intros H. destruct (rstrip_split s) as (post & E & Hpost).
  rewrite E in H. apply (free_of_prefix _ post H). by apply spaces_head_not_word.
Qed.

Lemma join_lines_before cue lines :
  exists rest,
    join newline lines = join newline (lines_before cue lines) ++ rest
    /\ (lines_before cue lines = [] \/ rest = [] \/ head rest = Some "010"%char).
Proof.
  induction lines as [|l ls (rest & E & Hrest)]; [by exists []; auto|].
  simpl lines_before. destruct (cue l); [by exists (join newline (l :: ls)); auto|].
  destruct ls as [|l2 ls]; [by exists []; rewrite app_nil_r; auto|].
  change (join newline (l :: l2 :: ls))
    with (l ++ newline ++ join newline (l2 :: ls)).
  destruct (lines_before cue (l2 :: ls)) as [|x lb] eqn:Hlb.
  - exists (newline ++ join newline (l2 :: ls)). split; [done|]. by right; right.
  - exists rest. split.
    + change (join newline (l :: x :: lb))
        with (l ++ newline ++ join newline (x :: lb)).
      by rewrite E, <- !app_assoc.
    + destruct Hrest as [?|?]; [done|by right].
Qed.

Lemma free_of_joined_lines s :
  free_of email_pattern s -> free_of email_pattern (joined_lines s).
Proof.
  intros H. unfold joined_lines. apply free_of_strip.
  rewrite cleaned_lines_before.
  destruct (join_lines_before is_signature (split "010" s)) as (rest & E & Hrest).
  rewrite join_split in E. destruct Hrest as [->|[->| Hh]].
  - apply free_of_nil, email_pattern_never_empty.
  - by rewrite app_nil_r in E; rewrite <- E.
  - rewrite E in H. apply (free_of_prefix _ rest H). by rewrite Hh.
Qed.

Lemma free_of_inline_trim lead s :
  (forall b w a, matches (inline_pattern lead) b w a -> wordy (head w) = false) ->
  free_of email_pattern s ->
  free_of email_pattern (re_sub (inline_pattern lead) [] s).
Proof.
  intros Hhead H.
  destruct (re_sub_to_the_end (inline_pattern lead) s
              (inline_pattern_never_empty _) (inline_pattern_to_the_end _))
    as [[_ ->]|(pre & w & rest & [E M] & _ & ->)]; [done|].
  assert (Hpre : free_of email_pattern pre).
  { rewrite E in H. apply (free_of_prefix _ _ H).
    rewrite head_app_nonempty; [by apply (Hhead _ _ _ M)|].
    by apply (inline_pattern_never_empty _ _ _ _ M). }
  destruct (inline_pattern_to_the_end _ _ _ _ M) as [He _].
  apply at_end_cases in He as [->| ->]; [by rewrite app_nil_r|].
  by apply free_of_snoc.
Qed.

Lemma free_of_inline_trim1 s :
  free_of email_pattern s -> free_of email_pattern (inline_trim1 s).
Proof.
  unfold inline_trim1. rewrite inline_signature_pattern_shape.
  apply free_of_inline_trim. intros b w a M.
  rewrite <- inline_signature_pattern_shape in M.
  apply matches_inline_signature_pattern in M as [Hu _].
  destruct (inline_cue_head _ Hu) as (c & -> & [Hc|Hc]); simpl.
  - by apply sentence_end_not_word.
  - by apply isspace_not_word.
Qed.

Lemma free_of_inline_trim2 s :
  free_of email_pattern s -> free_of email_pattern (inline_trim2 s).
Proof.
  unfold inline_trim2. rewrite inline_signature_pattern2_shape.
  apply free_of_inline_trim. intros b w a M.
  rewrite <- inline_signature_pattern2_shape in M.
  apply matches_inline_signature_pattern2 in M as [Hu _].
  by rewrite (inline_cue_comma_head _ Hu).
Qed.

Lemma free_of_end_sentence s :
  free_of email_pattern s -> free_of email_pattern (end_sentence s).
Proof.
  intros H. unfold end_sentence. apply free_of_rstrip in H.
  destruct (_ && _); [|done]. by apply free_of_snoc.
Qed.

Lemma sanitize_content_free content :
  free_of email_pattern (sanitize_content content).
Proof.
  unfold sanitize_content, remove_signature_lines.
  do 2 apply free_of_strip.
  apply free_of_end_sentence, free_of_inline_trim2, free_of_inline_trim1,
    free_of_joined_lines, redact_emails_free.
Qed.

(** C9. The sanitized text is a fixed point of the redaction: no part of it
    matches the address pattern, neither one left over by the redaction nor
    one made by cutting lines, trimming the end or appending the period. *)
Theorem sanitize_content_redaction_fixpoint (content : str) :
  redact_emails (sanitize_content content) = sanitize_content content.
Proof.
  apply re_sub_free; [apply email_pattern_never_empty|].
  apply sanitize_content_free.
Qed.

(** ** Text without address and without cue (C8) *)

(** Where the code finds no address and no cue, only the stripping and the
    sentence ending are left of the sanitization. *)
Lemma sanitize_content_without_cues (content : str) :
  free_of email_pattern content ->
  Forall (fun l => ~ line_cue l) (split "010" content) ->
  free_of inline_signature_pattern (strip content) ->
  free_of inline_signature_pattern2 (strip content) ->
  sanitize_content content = strip (end_sentence (strip content)).
Proof.
  intros Hmail Hlines H1 H2.
  unfold sanitize_content, remove_signature_lines, redact_emails.
  rewrite strip_strip, (re_sub_free _ _ _ email_pattern_never_empty Hmail).
  assert (joined_lines content = strip content) as ->.
  { unfold joined_lines. rewrite cleaned_lines_before.
    by rewrite lines_before_no_cue, join_split. }
  unfold inline_trim1. rewrite (re_sub_free _ _ _ (inline_pattern_never_empty _) H1).
  unfold inline_trim2. by rewrite (re_sub_free _ _ _ (inline_pattern_never_empty _) H2).
Qed.

Lemma match_positions_nil r a : forall i b,
  match_positions r i b a = [] ->
  forall pre w post, a = pre ++ w ++ post -> ~ matches r (rev pre ++ b) w post.
Proof.
  induction a as [|c a IH]; intros i b H pre w post E; simpl in H.
  - destruct (match_here r false b []) eqn:Hm; [done|].
    destruct pre; [|done]. destruct w; [|done]. destruct post; [|done].
    by apply (match_here_none r b [] []).
  - destruct (match_here r false b (c :: a)) eqn:Hm; [done|]. simpl in H.
    destruct pre as [|c' pre].
    + simpl in E |- *. apply match_here_none. by rewrite <- E.
    + injection E as <- E. rewrite rev_cons_app. by apply (IH _ _ H).
Qed.

Lemma no_match_positions r s : match_positions r 0 [] s = [] -> free_of r s.
Proof.
  intros H pre w post [E M].
  apply (match_positions_nil r s 0 [] H pre w post E). by rewrite app_nil_r.
Qed.

(** C8 (defect in the code, the one of C1). The text below has no part of
    the shape of an address as the specification defines it, no line that
    starts with a cue and no inline keyword; still the sanitization does
    more than strip it and end the sentence, because the last-label class
    of the code holds the bar. *)
Theorem sanitize_content_redacts_barred_label :
  free_of AsSpecified.email_pattern (L "ping a@b.c|d now")
  /\ existsb AsSpecified.is_signature (split "010" (L "ping a@b.c|d now")) = false
  /\ free_of AsSpecified.inline_cue (L "ping a@b.c|d now")
  /\ sanitize_content (L "ping a@b.c|d now") = L "ping [redacted-email] now."
  /\ strip (end_sentence (strip (L "ping a@b.c|d now"))) = L "ping a@b.c|d now.".
Proof.
  split; [apply no_match_positions; vm_compute; reflexivity|].
  split; [vm_compute; reflexivity|].
  split; [apply no_match_positions; vm_compute; reflexivity|].
  split; vm_compute; reflexivity.
Qed.

(** ** The statements at work on examples *)


Lemma sanitize_content_trimmed_and_punctuated_witness :
  exists c, last (sanitize_content (L "  Is it on by default  ")) = Some c
            /\ In c (L ".!?").
Proof.
  destruct (sanitize_content_trimmed_and_punctuated (L "  Is it on by default  "))
    as (_ & H & _).
  apply H. vm_compute. discriminate.
Defined.

(** * Further properties of the sanitizer, the titles and the selector *)

(** ** Redaction *)

(** After the redaction no part of the text matches the address pattern, so
    a second redaction changes nothing. *)
Theorem redact_emails_idempotent (text : str) :
  free_of email_pattern (redact_emails text)
  /\ redact_emails (redact_emails text) = redact_emails text.
Proof.
  split; [apply redact_emails_free|].
  apply re_sub_free; [apply email_pattern_never_empty|apply redact_emails_free].
Qed.

(** The redaction leaves a text as it is exactly when no part of the text
    matches the address pattern. *)
Theorem redact_emails_unchanged_iff (text : str) :
  redact_emails text = text <-> free_of email_pattern text.
Proof.
  split.
  - intros H. rewrite <- H. apply redact_emails_free.
  - apply re_sub_free, email_pattern_never_empty.
Qed.

Lemma free_of_without_at (text : str) :
  ~ In "@"%char text -> free_of email_pattern text.
Proof.
  intros Hno pre w post [-> M]. apply Hno.
  apply matches_email_pattern in M as [Hs _].
  apply in_app_iff. right. apply in_app_iff. left. by apply email_shape_at.
Qed.

(** A text without at sign is never changed. *)
Theorem redact_emails_without_at (text : str) :
  ~ In "@"%char text -> redact_emails text = text.
Proof.
  intros Hno. apply re_sub_free; [apply email_pattern_never_empty|].
  by apply free_of_without_at.
Qed.

Lemma redact_emails_without_at_witness :
  redact_emails (L "Does the assistant read the whole repository?")
  = L "Does the assistant read the whole repository?".
Proof.
  apply redact_emails_without_at. vm_compute.
  intros H. repeat (destruct H as [H|H]; [discriminate H|]). exact H.
Defined.

(** ** Titles *)

Lemma rfind_cases c (s : str) :
  rfind c s = (-1)%Z \/ exists p, rfind c s = Z.of_nat p /\ p < length s.
Proof.
  unfold rfind. destruct (find_from c 0 s) as [j|] eqn:E; [|by left].
  right. exists j. split; [done|].
  destruct (find_from_Some _ _ _ _ E) as (p & -> & Hp & _).
  by apply lookup_lt_Some in Hp.
Qed.

Lemma default_threshold p :
  p < 60 ->
  int_gt_float (Z.of_nat p)
    (float_mul (float_of_int TITLE_MAX_LENGTH) TITLE_WORD_BOUNDARY_THRESHOLD)
  = (42 <? p).
Proof.
  intros Hp. do 60 (destruct p as [|p]; [vm_compute; reflexivity|]). lia.
Qed.

(** Content that fits in [max_length] characters, the empty content
    included, is taken whole: the title is the prefix and the content,
    without ellipsis. *)
Theorem generate_title_short (content : str) (max_length : Z) :
  (Z.of_nat (length content) <= max_length)%Z ->
  generate_title content max_length = TITLE_PREFIX ++ content.
Proof.
  intros H. unfold generate_title.
  rewrite slice_to_nonneg by lia. rewrite take_ge by lia.
  by rewrite (proj2 (Z.ltb_ge _ _) H).
Qed.

Lemma generate_title_short_witness :
  generate_title [] TITLE_MAX_LENGTH = L "Q&A: ".
Proof.
  rewrite (generate_title_short [] TITLE_MAX_LENGTH); [reflexivity|].
  vm_compute. discriminate.
Defined.

(** With the default length, content of more than 60 characters gives a
    title made of the prefix, the first [p] characters of the content and
    the ellipsis, where [p] is at least 43 and at most 60: a cut at a word
    boundary never leaves less than the threshold fraction of the target
    length. *)
Theorem generate_title_truncated_keeps_most (content : str) :
  60 < length content ->
  exists p, 43 <= p <= 60
            /\ generate_title content TITLE_MAX_LENGTH
               = TITLE_PREFIX ++ take p content ++ L "...".
Proof.
  intros Hlen. unfold generate_title.
  rewrite slice_to_nonneg by (unfold TITLE_MAX_LENGTH; lia).
  rewrite (proj2 (Z.ltb_lt TITLE_MAX_LENGTH _)) by (unfold TITLE_MAX_LENGTH; lia).
  change (Z.to_nat TITLE_MAX_LENGTH) with 60.
  set (cut := take 60 content).
  assert (Hcut : length cut = 60) by (subst cut; rewrite length_take; lia).
  destruct (rfind_cases " " cut) as [->|(p & -> & Hp)].
  - rewrite int_gt_float_minus_one
      by (apply threshold_product_not_negative, float_of_int_not_negative;
          unfold TITLE_MAX_LENGTH; lia).
    exists 60. split; [lia|done].
  - rewrite default_threshold by lia. destruct (42 <? p) eqn:E.
    + apply Nat.ltb_lt in E. exists p. split; [lia|].
      rewrite slice_to_nonneg, Nat2Z.id by lia. subst cut.
      rewrite take_take. by replace (p `min` 60) with p by lia.
    + exists 60. split; [lia|done].
Qed.

Lemma generate_title_truncated_keeps_most_witness :
  exists p, 43 <= p <= 60
            /\ generate_title
                 (L "Is there any way at all to have the assistant read a whole monorepo?")
                 TITLE_MAX_LENGTH
               = TITLE_PREFIX
                 ++ take p (L "Is there any way at all to have the assistant read a whole monorepo?")
                 ++ L "...".
Proof.
  apply generate_title_truncated_keeps_most. vm_compute. lia.
Defined.


(** ** Signature removal *)

Lemma drop_while_all p (s : str) :
  Forall (fun c => p c = true) s -> drop_while p s = [].
Proof. induction 1 as [|c s Hc _ IH]; simpl; [done|]. by rewrite Hc. Qed.

Lemma strip_spaces s : Forall (fun c => isspace c = true) s -> strip s = [].
Proof.
  intros H. unfold strip, rstrip. rewrite drop_while_all; [done|].
  apply Forall_forall. intros c Hc. apply list_elem_of_In, in_rev in Hc.
  rewrite Forall_forall in H. by apply H, list_elem_of_In.
Qed.

Lemma inline_trim1_nil : inline_trim1 [] = [].
Proof.
  unfold inline_trim1, re_sub. rewrite inline_signature_pattern_shape.
  apply sub_scan_nil, inline_pattern_never_empty.
Qed.

Lemma inline_trim2_nil : inline_trim2 [] = [].
Proof.
  unfold inline_trim2, re_sub. rewrite inline_signature_pattern2_shape.
  apply sub_scan_nil, inline_pattern_never_empty.
Qed.

Lemma remove_signature_lines_nothing_kept text :
  joined_lines text = [] -> remove_signature_lines text = [].
Proof.
  intros H. unfold remove_signature_lines.
  by rewrite H, inline_trim1_nil, inline_trim2_nil.
Qed.

Lemma joined_lines_spaces text :
  Forall (fun c => isspace c = true) text -> joined_lines text = [].
Proof.
  intros H. unfold joined_lines. apply strip_spaces.
  rewrite cleaned_lines_before.
  destruct (join_lines_before is_signature (split "010" text)) as (rest & E & _).
  rewrite join_split in E. rewrite E in H. by apply Forall_app in H as [? _].
Qed.

Lemma spaces_without_at text :
  Forall (fun c => isspace c = true) text -> ~ In "@"%char text.
Proof.
  intros H Hin. rewrite Forall_forall in H.
  by specialize (H _ (proj2 (list_elem_of_In _ _) Hin)).
Qed.

Lemma redact_emails_spaces text :
  Forall (fun c => isspace c = true) text -> redact_emails text = text.
Proof.
  intros H. apply re_sub_free; [apply email_pattern_never_empty|].
  by apply free_of_without_at, spaces_without_at.
Qed.

(** Content that is empty or made of whitespace only is sanitized to the
    empty text, of which the title is the bare prefix. *)
Theorem sanitize_content_blank (content : str) :
  Forall (fun c => isspace c = true) content ->
  sanitize_content content = []
  /\ generate_title (sanitize_content content) TITLE_MAX_LENGTH = TITLE_PREFIX.
Proof.
  intros H.
  assert (E : sanitize_content content = []).
  { unfold sanitize_content.
    rewrite (redact_emails_spaces _ H).
    by rewrite (remove_signature_lines_nothing_kept _ (joined_lines_spaces _ H)). }
  by rewrite E.
Qed.

Lemma sanitize_content_blank_witness :
  sanitize_content (L "   " ++ newline ++ L "  ") = []
  /\ generate_title (sanitize_content (L "   " ++ newline ++ L "  "))
       TITLE_MAX_LENGTH = TITLE_PREFIX.
Proof.
  apply sanitize_content_blank. vm_compute. repeat constructor.
Defined.

(** When the first line of the text is a signature cue nothing is kept: the
    result is the empty text, whatever follows the line. *)
Theorem remove_signature_lines_first_line_cue (text : str) :
  (exists l rest, split "010" text = l :: rest /\ line_cue l) ->
  remove_signature_lines text = [].
Proof.
  intros (l & rest & E & Hl). apply remove_signature_lines_nothing_kept.
  unfold joined_lines. rewrite cleaned_lines_before, E.
  pose proof (lines_before_first_cue [] l rest (Forall_nil_2 _) Hl) as H.
  change ([] ++ l :: rest) with (l :: rest) in H. by rewrite H.
Qed.

Lemma remove_signature_lines_first_line_cue_witness :
  remove_signature_lines
    (L "Best way to roll this out to a large team?" ++ newline ++ L "We are 400 people.")
  = [].
Proof.
  apply remove_signature_lines_first_line_cue.
  exists (L "Best way to roll this out to a large team?"), [L "We are 400 people."].
  split; [vm_compute; reflexivity|].
  apply is_signature_spec. vm_compute. reflexivity.
Defined.

(** *** Nothing but deletion *)

Lemma lstrip_grows a b : exists k, lstrip (a ++ b) = lstrip a ++ k.
Proof.
  unfold lstrip. induction a as [|c a IH]; simpl; [by eexists|].
  destruct (isspace c); [done|]. by exists b.
Qed.

Lemma rstrip_app_spaces s ws :
  Forall (fun c => isspace c = true) ws -> rstrip (s ++ ws) = rstrip s.
Proof.
  intros H. unfold rstrip. rewrite rev_app_distr. f_equal.
  assert (Hr : Forall (fun c => isspace c = true) (rev ws)).
  { apply Forall_forall. intros c Hc. apply list_elem_of_In, in_rev in Hc.
    rewrite Forall_forall in H. by apply H, list_elem_of_In. }
  induction Hr as [|c l Hc _ IH]; simpl; [done|]. by rewrite Hc.
Qed.

(** A text that does not end in whitespace and starts [t ++ ws], where [ws]
    is whitespace, starts [t]. *)
Lemma starts_before_spaces (u k t ws : str) :
  u ++ k = t ++ ws -> Forall (fun c => isspace c = true) ws ->
  (forall c, last u = Some c -> isspace c = false) ->
  exists k', t = u ++ k'.
Proof.
  intros E Hws Hu. apply app_eq_inv in E as [(j & -> & ->)|(j & -> & _)]; [|by exists j].
  destruct j as [|c j _] using rev_ind; [exists []; by rewrite !app_nil_r|].
  exfalso. specialize (Hu c). rewrite app_assoc, last_snoc in Hu.
  apply Forall_app in Hws as [Hws _]. apply Forall_app in Hws as [_ Hws].
  apply Forall_cons in Hws as [Hc _]. rewrite Hu in Hc; done.
Qed.

Lemma rstrip_starts s : exists k, s = rstrip s ++ k.
Proof. destruct (rstrip_split s) as (post & E & _). by exists post. Qed.

(** What an inline trim leaves, right-stripped, is a beginning of the text
    it was given. *)
Lemma inline_trim_starts lead s :
  exists k, s = rstrip (re_sub (inline_pattern lead) [] s) ++ k.
Proof.
  destruct (re_sub_to_the_end (inline_pattern lead) s
              (inline_pattern_never_empty _) (inline_pattern_to_the_end _))
    as [[_ ->]|(pre & w & rest & [E M] & _ & ->)]; [apply rstrip_starts|].
  destruct (inline_pattern_to_the_end _ _ _ _ M) as [He _].
  assert (Hrest : Forall (fun c => isspace c = true) rest).
  { apply at_end_cases in He as [->| ->]; by repeat constructor. }
  rewrite (rstrip_app_spaces _ _ Hrest).
  destruct (rstrip_starts pre) as [k Hk]. exists (k ++ w ++ rest).
  by rewrite app_assoc, <- Hk.
Qed.

Lemma remove_signature_lines_body text :
  let body := rstrip (inline_trim2 (inline_trim1 (joined_lines text))) in
  (exists k, lstrip text = body ++ k)
  /\ remove_signature_lines text
     = body ++ (if negb (length body =? 0) && negb (last_in (L ".!?") body)
                then L "." else []).
Proof.
  intros body.
  assert (Hlast : forall c, last body = Some c -> isspace c = false)
    by apply rstrip_last.
  (* the body starts the joined lines *)
  assert (H2 : exists k, joined_lines text = body ++ k).
  { subst body. set (X := joined_lines text) in *.
    unfold inline_trim2 in *. rewrite inline_signature_pattern2_shape in *.
    destruct (inline_trim_starts (Char (chr_eq ",")) (inline_trim1 X)) as [k2 E2].
    unfold inline_trim1 in *. rewrite inline_signature_pattern_shape in *.
    destruct (inline_trim_starts (Opt (Char sentence_end)) X) as [k1 E1].
    set (T1 := re_sub (inline_pattern (Opt (Char sentence_end))) [] X) in *.
    set (B := rstrip (re_sub (inline_pattern (Char (chr_eq ","))) [] T1)) in *.
    destruct (rstrip_split T1) as (ws & E3 & Hws).
    rewrite E3 in E2. symmetry in E2.
    destruct (starts_before_spaces _ _ _ _ E2 Hws Hlast) as [k' Hk'].
    exists (k' ++ k1). by rewrite app_assoc, <- Hk'. }
  (* the joined lines start the text, stripped on the left *)
  assert (H1 : exists k, lstrip text = joined_lines text ++ k).
  { unfold joined_lines. rewrite cleaned_lines_before.
    destruct (join_lines_before is_signature (split "010" text)) as (rest & E & _).
    rewrite join_split in E. set (J := join newline _) in *.
    destruct (rstrip_starts J) as [k1 Hk1].
    destruct (lstrip_grows (rstrip J) (k1 ++ rest)) as [k2 Hk2].
    exists k2. unfold strip. rewrite <- Hk2, app_assoc, <- Hk1. by rewrite E. }
  destruct H1 as [k1 E1], H2 as [k2 E2].
  assert (Hstart : exists k, lstrip text = body ++ k).
  { exists (k2 ++ k1). by rewrite E1, E2, <- app_assoc. }
  split; [done|].
  assert (Hhead : forall c, head body = Some c -> isspace c = false).
  { intros c Hc. apply (lstrip_head text). destruct Hstart as [k ->].
    by destruct body. }
  unfold remove_signature_lines, end_sentence. fold body.
  change (L ".") with ["."%char].
  destruct (negb (length body =? 0) && negb (last_in (L ".!?") body)) eqn:E.
  - apply strip_id.
    + intros c. destruct body; [done|]. apply Hhead.
    + intros c. rewrite last_snoc. by intros [= <-].
  - rewrite app_nil_r. by apply strip_id.
Qed.

(** The signature removal only deletes from the end: its result is a
    beginning of the text (leading whitespace apart), to which one period is
    appended when that beginning is not empty and does not end in a period,
    an exclamation mark or a question mark. *)
Theorem remove_signature_lines_only_deletes (text : str) :
  exists body dot,
    (exists k, lstrip text = body ++ k)
    /\ (dot = [] \/ dot = L "." /\ body <> [])
    /\ remove_signature_lines text = body ++ dot.
Proof.
  destruct (remove_signature_lines_body text) as [Hstart E].
  set (body := rstrip _) in *. exists body.
  destruct (negb (length body =? 0) && negb (last_in (L ".!?") body)) eqn:Hc.
  - exists (L "."). split; [done|]. split; [|done]. right. split; [done|].
    apply andb_true_iff in Hc as [Hc _]. apply negb_true_iff, Nat.eqb_neq in Hc.
    by destruct body.
  - exists []. auto.
Qed.

(** The sanitized content likewise: it is a beginning of the redacted
    content, with at most one period appended. *)
Theorem sanitize_content_only_deletes (content : str) :
  exists body dot,
    (exists k, lstrip (redact_emails content) = body ++ k)
    /\ (dot = [] \/ dot = L "." /\ body <> [])
    /\ sanitize_content content = body ++ dot.
Proof.
  destruct (remove_signature_lines_body (redact_emails content)) as [Hstart E].
  set (body := rstrip _) in *.
  assert (Hs : sanitize_content content = remove_signature_lines (redact_emails content)).
  { unfold sanitize_content, remove_signature_lines. apply strip_strip. }
  exists body.
  destruct (negb (length body =? 0) && negb (last_in (L ".!?") body)) eqn:Hc.
  - exists (L "."). split; [done|]. split; [|by rewrite Hs]. right. split; [done|].
    apply andb_true_iff in Hc as [Hc _]. apply negb_true_iff, Nat.eqb_neq in Hc.
    by destruct body.
  - exists []. split; [done|]. split; [by left|by rewrite Hs].
Qed.


(** ** The selector *)

Lemma filter_questions_filter rows :
  filter_questions rows = filter attendee_question rows.
Proof. unfold filter_questions. by rewrite filter_loop. Qed.

(** Selecting from two batches of rows and joining the results gives what
    selecting from the joined batches gives. *)
Theorem filter_questions_app (rows1 rows2 : list row) :
  filter_questions (rows1 ++ rows2)
  = filter_questions rows1 ++ filter_questions rows2.
Proof. rewrite !filter_questions_filter. apply filter_app. Qed.

(** Selecting again from the selected rows changes nothing. *)
Theorem filter_questions_idempotent (rows : list row) :
  filter_questions (filter_questions rows) = filter_questions rows.
Proof.
  rewrite !filter_questions_filter.
  induction rows as [|r rows IH]; [done|].
  destruct (decide (attendee_question r)) as [Hr|Hr].
  - rewrite (filter_cons_True _ _ _ Hr), (filter_cons_True _ _ _ Hr).
    by rewrite IH.
  - by rewrite (filter_cons_False _ _ _ Hr).
Qed.

(** Every selected row is a row of the input that has both a [Source] and a
    [Type] field: a row that lacks one of them is never selected. *)
Theorem filter_questions_fields_present (rows : list row) (r : row) :
  r ∈ filter_questions rows ->
  r ∈ rows /\ is_Some (r !! L "Source") /\ is_Some (r !! L "Type").
Proof.
  rewrite filter_questions_filter, list_elem_of_filter.
  intros [[Hs Ht] Hin]. split; [done|].
  unfold same_ignoring_case, get in Hs, Ht.
  split.
  - destruct (r !! L "Source"); [by eexists|]. discriminate Hs.
  - destruct (r !! L "Type"); [by eexists|]. discriminate Ht.
Qed.

Lemma filter_questions_fields_present_witness :
  ({[ L "Source" := L "Attendee"; L "Type" := L "question" ]} : row)
    ∈ (([{[ L "Source" := L "Attendee"; L "Type" := L "question" ]}]) : list row)
  /\ is_Some (({[ L "Source" := L "Attendee"; L "Type" := L "question" ]} : row)
                !! L "Source")
  /\ is_Some (({[ L "Source" := L "Attendee"; L "Type" := L "question" ]} : row)
                !! L "Type").
Proof.
  apply (filter_questions_fields_present
           [{[ L "Source" := L "Attendee"; L "Type" := L "question" ]}]).
  assert (E : filter_questions
                [({[ L "Source" := L "Attendee"; L "Type" := L "question" ]} : row)]
              = [{[ L "Source" := L "Attendee"; L "Type" := L "question" ]}]).
  { vm_compute. reflexivity. }
  rewrite E. apply list_elem_of_here.
Defined.
